(** * PhraseKit: the add-word workflow script

    A shallow embedding of [.github/workflows/add-word.py] and the
    properties of its validation-and-merge engine.

    Conventions of the model.
    - A Python [str] read from the environment is a [string] whose
      characters are the code points below 256; [str.splitlines],
      [str.strip] and [str.lower] keep a string in that range, and they are
      modelled on all of it.
    - A [str] read from a store file is the list of its code points: a
      store can hold any text, also a lone surrogate, which UTF-8 cannot
      encode.  Store files are read and written in UTF-8.
    - The value [json.load] returns is a [json] tree; a dict keeps its
      items in insertion order and a key is looked up at its first binding.
    - The file system is a finite map from paths to files; a run returns
      its outcome, the final file system and the trace of its effects.
    - Operating-system errors of [open] and [mkdir] and the limits of the
      interpreter are outside the model, and the calls into the client of
      the issue tracker are taken to return.  The exceptions that depend on
      the content of a store file or on what the script computes itself
      are inside it: those of [json.load], of the merge step, of
      [json.dump] and of [int(issue_number)]. *)

From Stdlib Require Import ZArith Ascii String.
From stdpp Require Import gmap strings list fin_maps.

Set Warnings "-register-all".

(** ** Python strings *)

Module Str.

Definition code (c : ascii) : N := N_of_ascii c.

(** The code points of a string. *)
Fixpoint points (s : string) : list N :=
  match s with
  | EmptyString => []
  | String c r => code c :: points r
  end.

(** [c.isspace()], the characters [str.strip()] removes. *)
Definition isspace (c : ascii) : bool :=
  let n := code c in
  ((9 <=? n) && (n <=? 13) || (28 <=? n) && (n <=? 32)
   || (n =? 133) || (n =? 160))%N.

(** The line boundaries of [str.splitlines()]. *)
Definition is_linebreak (c : ascii) : bool :=
  let n := code c in
  ((10 <=? n) && (n <=? 13) || (28 <=? n) && (n <=? 30) || (n =? 133))%N.

Definition LF : ascii := ascii_of_N 10.
Definition CR : ascii := ascii_of_N 13.

(** [c.lower()] *)
Definition lower_char (c : ascii) : ascii :=
  let n := code c in
  if ((65 <=? n) && (n <=? 90)
      || (192 <=? n) && (n <=? 222) && negb (n =? 215))%N
  then ascii_of_N (n + 32) else c.

(** [s.lower()] *)
Fixpoint lower (s : string) : string :=
  match s with
  | EmptyString => EmptyString
  | String c r => String (lower_char c) (lower r)
  end.

Fixpoint lstrip (s : string) : string :=
  match s with
  | EmptyString => EmptyString
  | String c r => if isspace c then lstrip r else s
  end.

Fixpoint rstrip (s : string) : string :=
  match s with
  | EmptyString => EmptyString
  | String c r =>
      match rstrip r with
      | EmptyString => if isspace c then EmptyString else String c EmptyString
      | r' => String c r'
      end
  end.

(** [s.strip()] *)
Definition strip (s : string) : string := rstrip (lstrip s).

(** The scan of [s.splitlines()]: [line] is the line read so far,
    [after_cr] tells that the previous character was a carriage return,
    so that a line feed now belongs to the same boundary. *)
Fixpoint splitlines_from (after_cr : bool) (line s : string) : list string :=
  match s with
  | EmptyString => if bool_decide (line = "") then [] else [line]
  | String c r =>
      if after_cr && bool_decide (c = LF) then splitlines_from false line r
      else if is_linebreak c
           then line :: splitlines_from (bool_decide (c = CR)) "" r
           else splitlines_from false (line +:+ String c "") r
  end.

(** [s.splitlines()] *)
Definition splitlines (s : string) : list string := splitlines_from false "" s.

(** Truth value of a string: [if s]. *)
Definition truthy (s : string) : bool := negb (bool_decide (s = "")).

(** [w in s] for two strings: [w] occurs in [s] as a substring. *)
Fixpoint contains (w s : string) : bool :=
  String.prefix w s ||
  match s with
  | EmptyString => false
  | String _ r => contains w r
  end.

(** [sep.join(l)] is [String.concat sep l]. *)
Definition join (sep : string) (l : list string) : string := String.concat sep l.

(** The character class [[a-z]]. *)
Definition is_az (c : ascii) : bool :=
  let n := code c in ((97 <=? n) && (n <=? 122))%N.

Fixpoint skip_az (s : string) : string :=
  match s with
  | EmptyString => EmptyString
  | String c r => if is_az c then skip_az r else s
  end.

(** [re.match(r'^[a-z]+$', s)] as a truth value: one letter, then letters
    as far as they go, and what is left is the end of the string or one
    line feed before the end (which [$] accepts too). *)
Definition re_match_az (s : string) : bool :=
  match s with
  | EmptyString => false
  | String c r =>
      is_az c &&
      (let t := skip_az r in
       bool_decide (t = "") || bool_decide (t = String LF ""))
  end.

(** The format rule of a Word: one or more of [a]..[z], nothing else. *)
Fixpoint all_az (s : string) : bool :=
  match s with
  | EmptyString => true
  | String c r => is_az c && all_az r
  end.

Definition is_word (s : string) : bool := truthy s && all_az s.

(** The white space [int] skips at the two ends of its argument. *)
Definition int_space (c : ascii) : bool :=
  let n := code c in
  ((9 <=? n) && (n <=? 13) || (n =? 32) || (n =? 133) || (n =? 160))%N.

Fixpoint int_lstrip (s : string) : string :=
  match s with
  | EmptyString => EmptyString
  | String c r => if int_space c then int_lstrip r else s
  end.

Fixpoint int_rstrip (s : string) : string :=
  match s with
  | EmptyString => EmptyString
  | String c r =>
      match int_rstrip r with
      | EmptyString => if int_space c then EmptyString else String c EmptyString
      | r' => String c r'
      end
  end.

Definition is_digit (c : ascii) : bool :=
  let n := code c in ((48 <=? n) && (n <=? 57))%N.

(** The digits of a decimal literal, with single underscores between
    them: [value] is the number read so far, [count] the number of its
    digits, [after_digit] tells that the previous character was a digit. *)
Fixpoint digits (after_digit : bool) (value : Z) (count : nat) (s : string)
  : option (Z * nat) :=
  match s with
  | EmptyString => if after_digit then Some (value, count) else None
  | String c r =>
      if is_digit c
      then digits true (10 * value + (Z.of_N (code c) - 48)) (S count) r
      else if bool_decide (c = "_"%char) && after_digit
           then digits false value count r
           else None
  end.

(** The most digits [int] converts, [sys.get_int_max_str_digits()]. *)
Definition int_max_str_digits : nat := 4300.

(** [int(s)] for a string, [None] when it raises [ValueError]: white
    space, a sign, digits, white space. *)
Definition int (s : string) : option Z :=
  let t := int_rstrip (int_lstrip s) in
  let signed :=
    match t with
    | String c r =>
        if bool_decide (c = "+"%char) then (1%Z, r)
        else if bool_decide (c = "-"%char) then ((-1)%Z, r)
        else (1%Z, t)
    | EmptyString => (1%Z, t)
    end in
  match digits false 0 0 signed.2 with
  | Some (value, count) =>
      if (count <=? int_max_str_digits)%nat then Some (signed.1 * value)%Z else None
  | None => None
  end.

End Str.

(** ** Values, files, exceptions and effects *)

(** What [json.load] returns.  A string and a key are the lists of their
    code points.  A number is kept as its literal: the script never looks
    inside one. *)
Inductive json : Type :=
| JNull
| JBool (b : bool)
| JNum (literal : string)
| JStr (s : list N)
| JArr (items : list json)
| JObj (members : list (list N * json)).

(** A file either holds a JSON document or something [json.load] rejects. *)
Inductive file : Type :=
| Unparsable
| Document (data : json).

Inductive exn : Type :=
| SystemExit (status : Z)
| JSONDecodeError
| KeyError (key : string)
| TypeError
| AttributeError
| ValueError
| UnicodeEncodeError.

Inductive event : Type :=
| EvPrint (text : string)
| EvComment (issue : Z) (body : string)
| EvMkdir (dir : string)
| EvExists (path : string)
| EvRead (path : string)
| EvWrite (path : string) (data : json)
| EvTruncate (path : string).

(** The events that look at or change a store file. *)
Definition store_event (e : event) : bool :=
  match e with
  | EvExists _ | EvRead _ | EvWrite _ _ | EvTruncate _ => true
  | _ => false
  end.

Record result (A : Type) : Type := Result {
  outcome : exn + A;
  files : gmap string file;
  trace : list event
}.
Arguments Result {A} _ _ _.
Arguments outcome {A} _.
Arguments files {A} _.
Arguments trace {A} _.

(** The status the process ends with: 0 after the last statement, the
    argument of [sys.exit], 1 after any other uncaught exception. *)
Definition exit_status {A : Type} (o : exn + A) : Z :=
  match o with
  | inr _ => 0
  | inl (SystemExit n) => n
  | inl _ => 1
  end.

(** Computations that may raise. *)
Definition E (A : Type) : Type := exn + A.

#[global] Instance E_ret : MRet E := λ A x, inr x.
#[global] Instance E_bind : MBind E := λ A B f m,
  match m with
  | inl e => inl e
  | inr x => f x
  end.

(** Computations that may raise, over the file system, with a trace.
    An exception keeps the files as they are when it is raised. *)
Definition M (A : Type) : Type := gmap string file → result A.

#[global] Instance M_ret : MRet M := λ A x fs, Result (inr x) fs [].
#[global] Instance M_bind : MBind M := λ A B f m fs,
  let r := m fs in
  match outcome r with
  | inl e => Result (inl e) (files r) (trace r)
  | inr x =>
      let r' := f x (files r) in
      Result (outcome r') (files r') (trace r ++ trace r')
  end.

Definition emit (e : event) : M () := λ fs, Result (inr ()) fs [e].
Definition raise {A : Type} (e : exn) : M A := λ fs, Result (inl e) fs [].
Definition lift {A : Type} (m : E A) : M A := λ fs, Result m fs [].

Fixpoint for_each {A : Type} (l : list A) (body : A → M ()) : M () :=
  match l with
  | [] => mret ()
  | x :: l' => body x;; for_each l' body
  end.

(** ** Operations on loaded values *)

Module Py.

Fixpoint assoc (k : list N) (kvs : list (list N * json)) : option json :=
  match kvs with
  | [] => None
  | (k', v) :: kvs' => if bool_decide (k' = k) then Some v else assoc k kvs'
  end.

Fixpoint update (k : list N) (v : json) (kvs : list (list N * json))
  : list (list N * json) :=
  match kvs with
  | [] => []
  | (k', v') :: kvs' =>
      if bool_decide (k' = k) then (k', v) :: kvs' else (k', v') :: update k v kvs'
  end.

(** [d[k]] *)
Definition getitem (d : json) (k : string) : E json :=
  match d with
  | JObj kvs =>
      match assoc (Str.points k) kvs with
      | Some v => inr v
      | None => inl (KeyError k)
      end
  | _ => inl TypeError
  end.

Definition str_eq (w : string) (x : json) : bool :=
  match x with
  | JStr s => bool_decide (s = Str.points w)
  | _ => false
  end.

(** [w] occurs in [s] as a substring. *)
Fixpoint occurs (w s : list N) : bool :=
  bool_decide (w `prefix_of` s) ||
  match s with
  | [] => false
  | _ :: r => occurs w r
  end.

(** [w in x] for a string [w]: an item of a list, a substring of a
    string, a key of a dict; other values are not iterable. *)
Definition contains (w : string) (x : json) : E bool :=
  match x with
  | JArr items => inr (existsb (str_eq w) items)
  | JStr s => inr (occurs (Str.points w) s)
  | JObj kvs => inr (existsb (λ kv, bool_decide (kv.1 = Str.points w)) kvs)
  | _ => inl TypeError
  end.

(** [x.append(w)]: the list [x] afterwards. *)
Definition append (x : json) (w : string) : E json :=
  match x with
  | JArr items => inr (JArr (items ++ [JStr (Str.points w)]))
  | _ => inl AttributeError
  end.

(** The dict [d] after the value under [k] was changed in place to [v]. *)
Definition mutated (d : json) (k : string) (v : json) : json :=
  match d with
  | JObj kvs => JObj (update (Str.points k) v kvs)
  | _ => d
  end.

(** [int(x)] for what [os.environ.get] returns: [None] or a string. *)
Definition int (x : option string) : E Z :=
  match x with
  | None => inl TypeError
  | Some s =>
      match Str.int s with
      | Some n => inr n
      | None => inl ValueError
      end
  end.

(** The code points that UTF-8 does not encode. *)
Definition is_surrogate (c : N) : bool := ((55296 <=? c) && (c <=? 57343))%N.

Definition utf8 (s : list N) : bool := forallb (λ c, negb (is_surrogate c)) s.

(** [json.dump] can write the value to a UTF-8 file: no string and no
    key in it has a lone surrogate. *)
Fixpoint encodable (x : json) : bool :=
  match x with
  | JStr s => utf8 s
  | JArr items => forallb encodable items
  | JObj kvs => forallb (λ kv, match kv with (k, v) => utf8 k && encodable v end) kvs
  | _ => true
  end.

End Py.

(** ** The script *)

(** [schema], lines 11-19: an object whose required members [pending],
    [safe] and [unsafe] are arrays of strings.  The script declares it
    and imports [validate], and calls neither. *)
Definition is_string (x : json) : bool :=
  match x with
  | JStr _ => true
  | _ => false
  end.

Definition string_array (x : json) : bool :=
  match x with
  | JArr items => forallb is_string items
  | _ => false
  end.

Definition required : list string := ["pending"; "safe"; "unsafe"].

Definition schema (data : json) : bool :=
  match data with
  | JObj kvs =>
      forallb (λ k, match Py.assoc (Str.points k) kvs with
                    | Some v => string_array v
                    | None => false
                    end) required
  | _ => false
  end.

(** Line 29 and lines 23, 30:
    [[x.strip().lower() for x in text.splitlines() if x.strip()]] *)
Definition normalize (text : string) : list string :=
  map (λ x, Str.lower (Str.strip x))
      (List.filter (λ x, Str.truthy (Str.strip x)) (Str.splitlines text)).

Definition print (text : string) : M () := emit (EvPrint text).

Definition sys_exit {A : Type} (status : Z) : M A := raise (SystemExit status).

(** Lines 43-46: the comment posted to the issue.  [int(issue_number)]
    is evaluated before the issue is asked for; the three calls into the
    client, [get_repo], [get_issue] and [create_comment], are one event. *)
Definition create_comment (issue_number : option string) (body : string) : M () :=
  number ← lift (Py.int issue_number);
  emit (EvComment number body).

Definition no_input_text : string := "No valid words or POS provided.".

(** Lines 32-34. *)
Definition check_input (word_list pos_list : list string) : M () :=
  if bool_decide (word_list = []) || bool_decide (pos_list = []) then
    print no_input_text;; sys_exit 1
  else mret ().

(** Line 37. *)
Definition invalid_words (word_list : list string) : list string :=
  List.filter (λ word, negb (Str.re_match_az word)) word_list.

(** Lines 39-40. *)
Definition invalid_message (invalid : list string) : string :=
  "The following words are invalid and cannot be processed: "
  +:+ Str.join ", " invalid +:+ ". Only alphabetic words are allowed.".

(** Lines 37-49. *)
Definition validate_words (issue_number : option string) (word_list : list string)
  : M () :=
  let invalid := invalid_words word_list in
  if negb (bool_decide (invalid = [])) then
    let message := invalid_message invalid in
    create_comment issue_number message;;
    print message;;
    sys_exit 1
  else mret ().

(** Lines 52-58. *)
Definition base_path : string := "Sources/PhraseKit/Resources".

Definition file_map : gmap string string :=
  list_to_map [
    ("adjective", base_path +:+ "/_adjective.json");
    ("adverb", base_path +:+ "/_adverb.json");
    ("noun", base_path +:+ "/_noun.json");
    ("verb", base_path +:+ "/_verb.json") ].

(** Line 61. *)
Definition mkdir (dir : string) : M () := emit (EvMkdir dir).

(** A member of a dict and a string, written with their text. *)
Definition member (k : string) (v : json) : list N * json := (Str.points k, v).
Definition text (s : string) : json := JStr (Str.points s).

Definition empty_record : json :=
  JObj [member "pending" (JArr []); member "safe" (JArr []); member "unsafe" (JArr [])].

(** Lines 64-70. *)
Definition load_or_create_json (path : string) : M json :=
  λ fs,
    match fs !! path with
    | Some f =>
        match f with
        | Document data => Result (inr data) fs [EvExists path; EvRead path]
        | Unparsable => Result (inl JSONDecodeError) fs [EvExists path; EvRead path]
        end
    | None => Result (inr empty_record) fs [EvExists path]
    end.

(** Lines 73-75.  [open(path, "w")] empties the file and [json.dump]
    writes the text piece by piece: when a string of [data] cannot be
    encoded the call raises, and the file is left with the beginning of
    the text, which does not parse. *)
Definition save_json (path : string) (data : json) : M () :=
  λ fs,
    if Py.encodable data
    then Result (inr ()) (<[path := Document data]> fs) [EvWrite path data]
    else Result (inl UnicodeEncodeError) (<[path := Unparsable]> fs) [EvTruncate path].

(** The condition of line 83, its three operands evaluated from the
    left, each only when the ones before it hold. *)
Definition is_new (word : string) (json_data : json) : E bool :=
  pending ← Py.getitem json_data "pending";
  in_pending ← Py.contains word pending;
  if (in_pending : bool) then mret false else
  safe ← Py.getitem json_data "safe";
  in_safe ← Py.contains word safe;
  if (in_safe : bool) then mret false else
  unsafe ← Py.getitem json_data "unsafe";
  in_unsafe ← Py.contains word unsafe;
  mret (negb (in_unsafe : bool)).

(** Lines 83-84: [json_data] after the two statements. *)
Definition add_word (word : string) (json_data : json) : E json :=
  new ← is_new word json_data;
  if (new : bool) then
    pending ← Py.getitem json_data "pending";
    pending' ← Py.append pending word;
    mret (Py.mutated json_data "pending" pending')
  else mret json_data.

(** Lines 80-85: the body of the inner loop. *)
Definition merge_pair (word pos : string) : M () :=
  match file_map !! pos with
  | Some json_path =>
      json_data ← load_or_create_json json_path;
      json_data' ← lift (add_word word json_data);
      save_json json_path json_data'
  | None => mret ()
  end.

(** Lines 78-85. *)
Definition merge (word_list pos_list : list string) : M () :=
  for_each word_list (λ word, for_each pos_list (λ pos, merge_pair word pos)).

Definition success_text : string :=
  "Words successfully added to the pending list in the appropriate JSON files.".

(** The whole script, on the three environment variables that decide
    what it does: [WORDS] and [POS], the empty string when they are not
    set, and [GITHUB_ISSUE_NUMBER], [None] when it is not set.  The other
    two, [GITHUB_REPOSITORY] and [GITHUB_TOKEN], are only handed to the
    client of the issue tracker. *)
Definition main (WORDS POS : string) (ISSUE : option string) : M () :=
  let word_list := normalize WORDS in
  let pos_list := normalize POS in
  check_input word_list pos_list;;
  validate_words ISSUE word_list;;
  mkdir base_path;;
  merge word_list pos_list;;
  print success_text.

Definition nl : string := String Str.LF "".

(** ** Notions the properties are stated with *)

(** What [strip] and [lower] leave has no white space at its end. *)
Definition trimmed (s : string) : Prop := Str.rstrip s = s.

(** The strings among the items of a list. *)
Definition strings (items : list json) : list (list N) :=
  omap (λ x, match x with JStr s => Some s | _ => None end) items.

(** The words a document lists under the key [k]. *)
Definition words (k : string) (data : json) : list (list N) :=
  match Py.getitem data k with
  | inr (JArr items) => strings items
  | _ => []
  end.

(** The record a store stands for: the document of its file, the empty
    record when there is no file (line 69) or none that parses. *)
Definition content (f : option file) : json :=
  match f with
  | Some (Document data) => data
  | _ => empty_record
  end.

Definition pending (f : option file) : list (list N) := words "pending" (content f).
Definition safe (f : option file) : list (list N) := words "safe" (content f).
Definition unsafe (f : option file) : list (list N) := words "unsafe" (content f).

(** No word twice in a set, no word in two sets. *)
Definition disjoint_unique (f : option file) : Prop :=
  NoDup (pending f ++ safe f ++ unsafe f).

(** The condition of line 83 holds and raises nothing. *)
Definition fresh (word : string) (json_data : json) : bool :=
  match is_new word json_data with
  | inr true => true
  | _ => false
  end.

(** The entries of a list in the order of their first occurrence. *)
Fixpoint first_occurrences (l : list string) : list string :=
  match l with
  | [] => []
  | x :: l' => x :: List.filter (λ y, negb (bool_decide (y = x))) (first_occurrences l')
  end.

(** The store [f] is the store [f0] with words of [word_list] added at
    the end of [pending], each once and none that [f0] already lists. *)
Definition grown (word_list : list string) (f0 f : option file) : Prop :=
  safe f = safe f0 ∧ unsafe f = unsafe f0 ∧
  ∃ added, pending f = pending f0 ++ (Str.points <$> added) ∧ NoDup added ∧
    ∀ w, w ∈ added →
      w ∈ word_list ∧ (Str.points w ∉ pending f0) ∧
      (Str.points w ∉ safe f0) ∧ (Str.points w ∉ unsafe f0).

(** Every store of a recognised tag is free of repetitions. *)
Definition stores_disjoint_unique (fs : gmap string file) : Prop :=
  ∀ pos path, file_map !! pos = Some path → disjoint_unique (fs !! path).

(** A file system with one store, used in examples. *)
Definition sample_files : gmap string file :=
  {[ "Sources/PhraseKit/Resources/_noun.json" :=
       Document (JObj [member "pending" (JArr [text "cat"]);
                       member "safe" (JArr [text "dog"]);
                       member "unsafe" (JArr [text "rat"])]) ]}.

(** The record line 82 gets for [path]: the document of the file, or the
    empty record when there is no file. *)
Definition loaded (fs : gmap string file) (path : string) (d : json) : Prop :=
  fs !! path = None ∧ d = empty_record ∨ fs !! path = Some (Document d).

(** The word is in one of the three lists of the record. *)
Definition listed (word : string) (d : json) : bool :=
  bool_decide (Str.points word
               ∈ words "pending" d ++ words "safe" d ++ words "unsafe" d).

(** The record matches the schema and can be written back. *)
Definition sound (d : json) : Prop := schema d = true ∧ Py.encodable d = true.

(** Every store file of a recognised tag that exists holds such a record. *)
Definition stores_sound (fs : gmap string file) : Prop :=
  ∀ pos path, file_map !! pos = Some path →
    fs !! path = None ∨ ∃ d, fs !! path = Some (Document d) ∧ sound d.

(** The same for the stores of the tags of a batch. *)
Definition batch_sound (pos_list : list string) (fs : gmap string file) : Prop :=
  ∀ pos path, pos ∈ pos_list → file_map !! pos = Some path →
    fs !! path = None ∨ ∃ d, fs !! path = Some (Document d) ∧ sound d.

(** The pairs of a word and a tag, in the order of the two loops. *)
Definition pairs (word_list pos_list : list string) : list (string * string) :=
  flat_map (λ word, map (λ pos, (word, pos)) pos_list) word_list.

(** A word of [n] letters. *)
Fixpoint letters (n : nat) : string :=
  match n with
  | O => ""
  | S n' => String "a" (letters n')
  end.

(** The longest string the membership test on [x] compares a word with. *)
Definition reach (x : json) : nat :=
  match x with
  | JArr items =>
      max_list ((λ i, match i with JStr s => length s | _ => 0 end) <$> items)
  | JStr s => length s
  | JObj kvs => max_list ((λ kv, length kv.1) <$> kvs)
  | _ => 0
  end.

Definition reach_at (d : json) (k : string) : nat :=
  match Py.getitem d k with
  | inr x => reach x
  | inl _ => 0
  end.

(** A word too long to be met in any of the three members of [d]. *)
Definition long_word (d : json) : string :=
  letters (S (reach_at d "pending" + reach_at d "safe" + reach_at d "unsafe")).

(** The store files the tags of a list stand for. *)
Definition targets (pos_list : list string) : list string :=
  omap (λ pos, file_map !! pos) pos_list.

(** The work item has nothing left to do on these files: it returns
    and leaves them as they are. *)
Definition settled (word pos : string) (fs : gmap string file) : Prop :=
  outcome (merge_pair word pos fs) = inr () ∧ files (merge_pair word pos fs) = fs.

(** A document that parses and misses a required member. *)
Definition sample_bad_store : json :=
  JObj [member "pending" (JArr [text "cat"]); member "safe" (JArr [])].

Definition sample_bad_files : gmap string file :=
  {[ "Sources/PhraseKit/Resources/_noun.json" := Document sample_bad_store ]}.

(** A document that matches the schema and holds a lone surrogate, the
    one the JSON text ["\ud83d"] stands for. *)
Definition sample_surrogate_store : json :=
  JObj [member "pending" (JArr [text "cat"]);
        member "safe" (JArr [JStr [55357%N]]);
        member "unsafe" (JArr [])].

Definition sample_surrogate_files : gmap string file :=
  {[ "Sources/PhraseKit/Resources/_noun.json" := Document sample_surrogate_store ]}.

(** A document that does not match the schema, with a number in its
    pending list. *)
Definition sample_odd_store : json :=
  JObj [member "pending" (JArr [JNum "1"]); member "safe" (JArr []);
        member "unsafe" (JArr [])].

Definition sample_odd_files : gmap string file :=
  {[ "Sources/PhraseKit/Resources/_noun.json" := Document sample_odd_store ]}.

(** The text with one entry per line. *)
Definition lines (ws : list string) : string := Str.join nl ws.

(** The string does not start with white space. *)
Definition no_lead (s : string) : Prop :=
  match s with
  | EmptyString => True
  | String c _ => Str.isspace c = false
  end.

(** The number of times a trace saves a store, and the number of times
    it asks whether a store file exists. *)
Definition saves (t : list event) : nat :=
  length (List.filter (λ e, match e with EvWrite _ _ => true | _ => false end) t).

Definition loads (t : list event) : nat :=
  length (List.filter (λ e, match e with EvExists _ => true | _ => false end) t).

(** The batch passes the two checks that come before the merge loop. *)
Definition admitted (WORDS POS : string) : Prop :=
  normalize WORDS ≠ [] ∧ normalize POS ≠ [] ∧
  ∀ w, w ∈ normalize WORDS → Str.is_word w = true.

(** The store is missing or holds a record that matches the schema and
    can be written back. *)
Definition well_formed (f : option file) : Prop :=
  f = None ∨ ∃ d, f = Some (Document d) ∧ sound d.

(** What the failing validator does: the message is posted and printed
    when the issue number is an integer, and nothing is when it is not. *)
Definition rejection (ISSUE : option string) (message : string)
    (fs : gmap string file) : result () :=
  match Py.int ISSUE with
  | inr number =>
      Result (inl (SystemExit 1)) fs [EvComment number message; EvPrint message]
  | inl e => Result (inl e) fs []
  end.

(** A file system whose noun store does not parse. *)
Definition sample_unparsable_files : gmap string file :=
  {[ "Sources/PhraseKit/Resources/_noun.json" := Unparsable ]}.

(** * Properties *)

(** ** Examples *)

Example splitlines_ex1 :
  Str.splitlines ("Cat" +:+ String Str.LF "cat" +:+ String Str.LF "dog")
  = ["Cat"; "cat"; "dog"].
Proof. reflexivity. Qed.

Example splitlines_ex2 :
  Str.splitlines ("a" +:+ String Str.CR (String Str.LF (String Str.LF "b" +:+ String Str.CR "")))
  = ["a"; ""; "b"].
Proof. reflexivity. Qed.

Example strip_ex : Str.strip "  a b  " = "a b".
Proof. reflexivity. Qed.

Example re_match_trailing_newline : Str.re_match_az (String "a" (String Str.LF "")) = true.
Proof. reflexivity. Qed.

Example main_ex1 :
  files (main ("Cat" +:+ nl +:+ "cat" +:+ nl +:+ "dog") "noun" None ∅)
    !! "Sources/PhraseKit/Resources/_noun.json"
  = Some (Document (JObj [member "pending" (JArr [text "cat"; text "dog"]);
                          member "safe" (JArr []); member "unsafe" (JArr [])])).
Proof. vm_compute. reflexivity. Qed.

Example main_ex2 :
  let r := main "123abc" "noun" (Some "7") ∅ in
  outcome r = inl (SystemExit 1) ∧ files r = ∅ ∧
  trace r = [EvComment 7 "The following words are invalid and cannot be processed: 123abc. Only alphabetic words are allowed.";
             EvPrint "The following words are invalid and cannot be processed: 123abc. Only alphabetic words are allowed."].
Proof. vm_compute. auto. Qed.

Example int_ex :
  Str.int " +1_000 " = Some 1000%Z ∧ Str.int "12a" = None ∧ Str.int "" = None.
Proof. by vm_compute. Qed.

(** ** Normalised strings and the format rule *)

Section normal_form.

Local Ltac by_cases_on c :=
  destruct c as [[] [] [] [] [] [] [] []]; vm_compute; try reflexivity; try discriminate.

Lemma isspace_lower_char c : Str.isspace (Str.lower_char c) = Str.isspace c.
Proof. by_cases_on c. Qed.

Lemma is_az_not_space c : Str.is_az c = true → Str.isspace c = false.
Proof. by_cases_on c. Qed.

Lemma rstrip_cons c r :
  Str.rstrip (String c r) =
  if bool_decide (Str.rstrip r = "") && Str.isspace c then ""
  else String c (Str.rstrip r).
Proof. simpl. destruct (Str.rstrip r); simpl; by destruct (Str.isspace c). Qed.

Lemma rstrip_idemp s : Str.rstrip (Str.rstrip s) = Str.rstrip s.
Proof.
  induction s as [|c r IH]; [done|].
  rewrite rstrip_cons.
  destruct (bool_decide (Str.rstrip r = "") && Str.isspace c) eqn:Hc; [done|].
  rewrite rstrip_cons, IH, Hc. done.
Qed.

Lemma lower_eq_empty s : Str.lower s = "" ↔ s = "".
Proof. by destruct s. Qed.

Lemma rstrip_lower s : Str.rstrip (Str.lower s) = Str.lower (Str.rstrip s).
Proof.
  induction s as [|c r IH]; [done|].
  cbn [Str.lower]. rewrite !rstrip_cons, IH, isspace_lower_char.
  assert (bool_decide (Str.lower (Str.rstrip r) = "") = bool_decide (Str.rstrip r = "")) as ->.
  { apply bool_decide_ext, lower_eq_empty. }
  by destruct (bool_decide (Str.rstrip r = "") && Str.isspace c).
Qed.

Lemma trimmed_normal x : trimmed (Str.lower (Str.strip x)).
Proof.
  unfold trimmed, Str.strip. by rewrite rstrip_lower, rstrip_idemp.
Qed.

Lemma trimmed_tail c r : trimmed (String c r) → trimmed r.
Proof.
  unfold trimmed. rewrite rstrip_cons.
  destruct (bool_decide (Str.rstrip r = "") && Str.isspace c); [done|].
  by intros [= ->].
Qed.

Lemma skip_az_trimmed s :
  trimmed s →
  bool_decide (Str.skip_az s = "") || bool_decide (Str.skip_az s = String Str.LF "")
  = Str.all_az s.
Proof.
  induction s as [|c r IH]; [done|]. intros Ht.
  cbn [Str.skip_az Str.all_az].
  destruct (Str.is_az c) eqn:Hc; simpl.
  - apply IH. by eapply trimmed_tail.
  - apply bool_decide_eq_false_2. intros [= -> ->]. by vm_compute in Ht.
Qed.

(** On a trimmed string the regular expression is the format rule. *)
Lemma re_match_az_trimmed s : trimmed s → Str.re_match_az s = Str.is_word s.
Proof.
  destruct s as [|c r]; [done|]. intros Ht.
  unfold Str.re_match_az, Str.is_word. cbn [Str.all_az].
  rewrite skip_az_trimmed by (by eapply trimmed_tail). done.
Qed.

Lemma normalize_trimmed text w : w ∈ normalize text → trimmed w.
Proof.
  unfold normalize. intros (x & -> & _)%list_elem_of_fmap. apply trimmed_normal.
Qed.

Lemma re_match_az_normalize text w :
  w ∈ normalize text → Str.re_match_az w = Str.is_word w.
Proof. intros Hw. eapply re_match_az_trimmed, normalize_trimmed, Hw. Qed.

(** A normalised entry is never empty. *)
Lemma normalize_truthy text w : w ∈ normalize text → w ≠ "".
Proof.
  unfold normalize. intros (x & -> & Hx)%list_elem_of_fmap.
  apply list_elem_of_In, filter_In in Hx as [_ Hx].
  unfold Str.truthy in Hx. apply negb_true_iff, bool_decide_eq_false in Hx.
  by rewrite lower_eq_empty.
Qed.

End normal_form.

(** ** Substrings *)

Section substrings.

Lemma prefix_nil s : String.prefix "" s = true.
Proof. by destruct s. Qed.

Lemma append_cons c s b : String c s +:+ b = String c (s +:+ b).
Proof. reflexivity. Qed.

Lemma prefix_refl w : String.prefix w w = true.
Proof.
  induction w as [|c w IH]; [done|].
  simpl. destruct (ascii_dec c c); [apply IH | done].
Qed.

Lemma prefix_app w b : String.prefix w (w +:+ b) = true.
Proof.
  induction w as [|c w IH]; [apply prefix_nil|].
  rewrite append_cons. simpl. destruct (ascii_dec c c); [apply IH | done].
Qed.

Lemma prefix_app_r w s b : String.prefix w s = true → String.prefix w (s +:+ b) = true.
Proof.
  revert s. induction w as [|c w IH]; intros s; [by rewrite !prefix_nil|].
  destruct s as [|d s]; [by intros [=]|]. rewrite append_cons. simpl.
  destruct (ascii_dec c d); [apply IH | done].
Qed.

Lemma contains_app_r w s b : Str.contains w s = true → Str.contains w (s +:+ b) = true.
Proof.
  induction s as [|d s IH].
  - simpl. rewrite orb_false_r. intros H. destruct w; [|done].
    destruct b; simpl; by rewrite ?prefix_nil.
  - rewrite append_cons. cbn [Str.contains].
    intros [H|H]%orb_true_iff; apply orb_true_iff.
    + left. by apply (prefix_app_r w (String d s) b).
    + right. by apply IH.
Qed.

Lemma contains_app_l w a s : Str.contains w s = true → Str.contains w (a +:+ s) = true.
Proof.
  intros H. induction a as [|d a IH]; [done|].
  rewrite append_cons. cbn [Str.contains]. apply orb_true_iff. by right.
Qed.

Lemma contains_prefix w s : String.prefix w s = true → Str.contains w s = true.
Proof. intros H. destruct s; cbn [Str.contains]; by rewrite H. Qed.

Lemma contains_self w b : Str.contains w (w +:+ b) = true.
Proof. apply contains_prefix, prefix_app. Qed.

Lemma contains_join sep w l : w ∈ l → Str.contains w (Str.join sep l) = true.
Proof.
  unfold Str.join. induction l as [|x l IH]; [by intros ?%elem_of_nil|].
  intros [->|Hin]%elem_of_cons.
  - destruct l; cbn [String.concat].
    + apply contains_prefix, prefix_refl.
    + apply contains_self.
  - destruct l as [|y l]; [by apply elem_of_nil in Hin|].
    change (String.concat sep (x :: y :: l))
      with (x +:+ sep +:+ String.concat sep (y :: l)).
    do 2 apply contains_app_l. by apply IH.
Qed.

End substrings.
(** ** Running the script *)

Section gates.

Lemma bind_run {A B : Type} (m : M A) (f : A → M B) fs :
  (m ≫= f) fs =
  match outcome (m fs) with
  | inl e => Result (inl e) (files (m fs)) (trace (m fs))
  | inr x =>
      let r' := f x (files (m fs)) in
      Result (outcome r') (files r') (trace (m fs) ++ trace r')
  end.
Proof. reflexivity. Qed.

Lemma invalid_words_nil word_list :
  invalid_words word_list = [] ↔ ∀ w, w ∈ word_list → Str.re_match_az w = true.
Proof.
  unfold invalid_words. induction word_list as [|x l IH]; simpl.
  - split; [by intros _ w ?%elem_of_nil | done].
  - destruct (Str.re_match_az x) eqn:Hx; simpl.
    + rewrite IH. split.
      * intros H w [->|?]%elem_of_cons; auto.
      * intros H w ?. apply H. by right.
    + split; [done|]. intros H. specialize (H x (list_elem_of_here _ _)). congruence.
Qed.

(** On normalised words the list of line 37 holds the words that fail
    the format rule, in order. *)
Lemma invalid_words_normalize WORDS :
  invalid_words (normalize WORDS)
  = List.filter (λ w, negb (Str.is_word w)) (normalize WORDS).
Proof.
  unfold invalid_words. apply List.filter_ext_in.
  intros w Hw%list_elem_of_In. by rewrite (re_match_az_normalize WORDS).
Qed.

Lemma main_no_input WORDS POS ISSUE fs :
  normalize WORDS = [] ∨ normalize POS = [] →
  main WORDS POS ISSUE fs = Result (inl (SystemExit 1)) fs [EvPrint no_input_text].
Proof.
  intros H. unfold main, check_input.
  assert (bool_decide (normalize WORDS = []) || bool_decide (normalize POS = []) = true) as ->.
  { apply orb_true_iff. destruct H; [left|right]; by apply bool_decide_eq_true. }
  reflexivity.
Qed.

Lemma check_input_pass word_list pos_list fs :
  word_list ≠ [] → pos_list ≠ [] →
  check_input word_list pos_list fs = Result (inr ()) fs [].
Proof.
  intros Hw Hp. unfold check_input.
  by rewrite !bool_decide_eq_false_2.
Qed.

Lemma validate_words_fail ISSUE word_list fs :
  invalid_words word_list ≠ [] →
  validate_words ISSUE word_list fs
  = rejection ISSUE (invalid_message (invalid_words word_list)) fs.
Proof.
  intros H. unfold validate_words, rejection.
  rewrite bool_decide_eq_false_2 by done. cbn [negb].
  rewrite bind_run. unfold create_comment. rewrite bind_run. unfold lift. cbn [outcome].
  by destruct (Py.int ISSUE).
Qed.

Lemma validate_words_pass ISSUE word_list fs :
  invalid_words word_list = [] →
  validate_words ISSUE word_list fs = Result (inr ()) fs [].
Proof.
  intros H. unfold validate_words.
  by rewrite bool_decide_eq_true_2.
Qed.

Lemma main_invalid WORDS POS ISSUE fs :
  normalize WORDS ≠ [] → normalize POS ≠ [] →
  invalid_words (normalize WORDS) ≠ [] →
  main WORDS POS ISSUE fs
  = rejection ISSUE (invalid_message (invalid_words (normalize WORDS))) fs.
Proof.
  intros Hw Hp Hi. unfold main.
  rewrite bind_run, check_input_pass by done. cbn [outcome files trace].
  rewrite bind_run, validate_words_fail by done.
  unfold rejection. by destruct (Py.int ISSUE).
Qed.

Lemma int_cases ISSUE :
  Py.int ISSUE = inl TypeError ∨ Py.int ISSUE = inl ValueError ∨
  ∃ number, Py.int ISSUE = inr number.
Proof.
  destruct ISSUE as [s|]; [|by left]. cbn.
  destruct (Str.int s); [right; right; eauto | right; by left].
Qed.

(** However the validator fails, it ends the run with status 1, leaves
    the files and looks at no store. *)
Lemma rejection_run ISSUE message fs :
  let r := rejection ISSUE message fs in
  files r = fs ∧ exit_status (outcome r) = 1%Z ∧ outcome r ≠ inr () ∧
  (∀ n, outcome r = inl (SystemExit n) → n = 1%Z) ∧
  Forall (λ e, store_event e = false) (trace r) ∧
  (∀ e, e ∈ trace r →
     e = EvPrint message ∨
     ∃ number, Py.int ISSUE = inr number ∧ e = EvComment number message).
Proof.
  unfold rejection.
  destruct (int_cases ISSUE) as [->|[->|[number ->]]]; cbn.
  - split; [done|]. split; [done|]. split; [done|].
    split; [by intros n [=]|]. split; [constructor|].
    by intros e ?%elem_of_nil.
  - split; [done|]. split; [done|]. split; [done|].
    split; [by intros n [=]|]. split; [constructor|].
    by intros e ?%elem_of_nil.
  - split; [done|]. split; [done|]. split; [done|].
    split; [by intros n [= <-]|]. split; [by repeat constructor|].
    intros e [->|He]%elem_of_cons; [right; eauto|].
    apply list_elem_of_singleton in He as ->. by left.
Qed.

Lemma rejection_files ISSUE message fs : files (rejection ISSUE message fs) = fs.
Proof. apply rejection_run. Qed.

Lemma rejection_outcome ISSUE message fs : outcome (rejection ISSUE message fs) ≠ inr ().
Proof. apply rejection_run. Qed.

(** Past the two gates the script is the merge loop between [mkdir]
    and the closing [print]. *)
Lemma main_merge WORDS POS ISSUE fs :
  normalize WORDS ≠ [] → normalize POS ≠ [] →
  invalid_words (normalize WORDS) = [] →
  let r := merge (normalize WORDS) (normalize POS) fs in
  main WORDS POS ISSUE fs =
  Result (outcome r) (files r)
         (EvMkdir base_path :: trace r ++
          match outcome r with inr _ => [EvPrint success_text] | inl _ => [] end).
Proof.
  intros Hw Hp Hi r. unfold main.
  rewrite bind_run, check_input_pass by done. cbn [outcome files trace].
  rewrite bind_run, validate_words_pass by done. cbn [outcome files trace].
  rewrite !bind_run. cbn [mkdir emit outcome files trace]. fold r.
  destruct (outcome r) as [e|[]] eqn:Ho; cbn; by rewrite ?app_nil_r.
Qed.

(** The three ways a run can go. *)
Lemma main_cases WORDS POS :
  let word_list := normalize WORDS in
  let pos_list := normalize POS in
  (word_list = [] ∨ pos_list = []) ∨
  (word_list ≠ [] ∧ pos_list ≠ [] ∧ invalid_words word_list ≠ []) ∨
  (word_list ≠ [] ∧ pos_list ≠ [] ∧ invalid_words word_list = []).
Proof.
  intros wl pl.
  destruct (decide (wl = [])); [by left; left|].
  destruct (decide (pl = [])); [by left; right|].
  destruct (decide (invalid_words wl = [])); right; [right|left]; done.
Qed.

End gates.
(** ** Code points *)

Section code_points.

Lemma points_inj a b : Str.points a = Str.points b → a = b.
Proof.
  revert b. induction a as [|c a IH]; intros [|d b]; try done.
  cbn. intros [= Hc Hab]. f_equal; [|by apply IH].
  unfold Str.code in Hc.
  by rewrite <-(ascii_N_embedding c), <-(ascii_N_embedding d), Hc.
Qed.

Lemma points_Inj : Inj (=) (=) Str.points.
Proof. intros a b. apply points_inj. Qed.

Lemma points_eq a b : Str.points a = Str.points b ↔ a = b.
Proof. split; [apply points_inj | by intros ->]. Qed.

Lemma points_length s : length (Str.points s) = String.length s.
Proof. induction s as [|c s IH]; [done|]. cbn. by rewrite IH. Qed.

Lemma code_not_surrogate c : Py.is_surrogate (Str.code c) = false.
Proof.
  unfold Py.is_surrogate, Str.code. pose proof (N_ascii_bounded c).
  apply andb_false_iff. left. apply N.leb_gt. lia.
Qed.

(** The text of an environment variable can be written to a store. *)
Lemma utf8_points s : Py.utf8 (Str.points s) = true.
Proof.
  induction s as [|c s IH]; [done|]. cbn. by rewrite code_not_surrogate.
Qed.

Lemma elem_of_points_fmap w (l : list string) :
  Str.points w ∈ Str.points <$> l ↔ w ∈ l.
Proof.
  rewrite list_elem_of_fmap. split; [|by exists w].
  by intros (x & ->%points_inj & ?).
Qed.

End code_points.

(** ** Loaded values *)

Section values.

Lemma assoc_update_eq k v kvs v0 :
  Py.assoc k kvs = Some v0 → Py.assoc k (Py.update k v kvs) = Some v.
Proof.
  induction kvs as [|[k' v'] kvs IH]; [done|]. simpl.
  case_bool_decide as Hk; simpl; rewrite ?bool_decide_eq_true_2 by done; [done|].
  rewrite bool_decide_eq_false_2 by done. apply IH.
Qed.

Lemma assoc_update_ne k k' v kvs :
  k ≠ k' → Py.assoc k' (Py.update k v kvs) = Py.assoc k' kvs.
Proof.
  intros Hne. induction kvs as [|[k0 v0] kvs IH]; [done|]. simpl.
  case_bool_decide as Hk; simpl.
  - subst k0. by rewrite !bool_decide_eq_false_2.
  - case_bool_decide; [done | apply IH].
Qed.

Lemma getitem_mutated_eq d k v v0 :
  Py.getitem d k = inr v0 → Py.getitem (Py.mutated d k v) k = inr v.
Proof.
  destruct d; try done. simpl.
  destruct (Py.assoc (Str.points k) members) eqn:Ha; [|done]. intros _.
  by erewrite assoc_update_eq.
Qed.

Lemma getitem_mutated_ne d k k' v :
  k ≠ k' → Py.getitem (Py.mutated d k v) k' = Py.getitem d k'.
Proof.
  intros Hne. destruct d; try done. simpl.
  rewrite assoc_update_ne; [done|]. by intros ?%points_inj.
Qed.

Lemma strings_app xs ys : strings (xs ++ ys) = strings xs ++ strings ys.
Proof. apply omap_app. Qed.

Lemma strings_fmap_JStr l : strings (JStr <$> l) = l.
Proof.
  induction l as [|x l IH]; [done|].
  rewrite fmap_cons. unfold strings in *. cbn [omap list_omap]. by rewrite IH.
Qed.

Lemma existsb_str_eq w items :
  existsb (Py.str_eq w) items = true ↔ Str.points w ∈ strings items.
Proof.
  induction items as [|x items IH]; simpl.
  - split; [done | by intros ?%elem_of_nil].
  - rewrite orb_true_iff, IH. unfold strings. cbn [omap list_omap].
    destruct x; simpl; try (split; [by intros [?|?] | by right]).
    rewrite elem_of_cons, bool_decide_eq_true.
    split; (intros [?|?]; [by left | by right]).
Qed.

Lemma contains_array w items :
  Py.contains w (JArr items) = inr (bool_decide (Str.points w ∈ strings items)).
Proof.
  simpl. f_equal. apply eq_true_iff_eq.
  by rewrite existsb_str_eq, bool_decide_eq_true.
Qed.

(** A word the membership test does not find under [k] is not listed there. *)
Lemma contains_false_words w d k x :
  Py.getitem d k = inr x → Py.contains w x = inr false → Str.points w ∉ words k d.
Proof.
  intros Hg Hc. unfold words. rewrite Hg.
  destruct x; try by intros ?%elem_of_nil.
  rewrite contains_array in Hc. injection Hc as Hc.
  by apply bool_decide_eq_false in Hc.
Qed.

Lemma words_mutated_pending d items items' :
  Py.getitem d "pending" = inr (JArr items) →
  words "pending" (Py.mutated d "pending" (JArr items')) = strings items'.
Proof.
  intros Hg. unfold words. by erewrite getitem_mutated_eq.
Qed.

Lemma words_mutated_other d k v :
  k ≠ "pending" → words k (Py.mutated d "pending" v) = words k d.
Proof.
  intros Hne. unfold words. by rewrite getitem_mutated_ne.
Qed.

(** Whether a dict can be written does not change when the value under
    a key is replaced by one that can be written as well as the old one. *)
Lemma encodable_update k v v0 kvs :
  Py.assoc k kvs = Some v0 → Py.encodable v = Py.encodable v0 →
  Py.encodable (JObj (Py.update k v kvs)) = Py.encodable (JObj kvs).
Proof.
  intros Ha Hv. induction kvs as [|[k' v'] kvs IH]; [done|].
  cbn [Py.assoc] in Ha. cbn [Py.update].
  case_bool_decide as Hk.
  - injection Ha as ->. cbn [Py.encodable forallb]. by rewrite Hv.
  - specialize (IH Ha). cbn [Py.encodable forallb] in IH |- *. by rewrite IH.
Qed.

Lemma encodable_mutated d k v v0 :
  Py.getitem d k = inr v0 → Py.encodable v = Py.encodable v0 →
  Py.encodable (Py.mutated d k v) = Py.encodable d.
Proof.
  destruct d as [| | | | |kvs]; try done. cbn [Py.getitem Py.mutated].
  destruct (Py.assoc (Str.points k) kvs) as [v1|] eqn:Ha; [|done].
  intros [= ->] Hv. by eapply encodable_update.
Qed.

Lemma encodable_append items w :
  Py.encodable (JArr (items ++ [JStr (Str.points w)])) = Py.encodable (JArr items).
Proof.
  cbn [Py.encodable]. rewrite forallb_app. cbn [forallb Py.encodable].
  by rewrite utf8_points, !andb_true_r.
Qed.

End values.

(** ** One cycle of the merge loop *)

Section cycle.

Local Ltac run_E :=
  unfold is_new, add_word, mbind, E_bind, mret, E_ret in *.

(** The condition holds exactly when the three lookups succeed and none
    of the three membership tests finds the word. *)
Lemma is_new_true word d :
  is_new word d = inr true ↔
  ∃ p s u,
    Py.getitem d "pending" = inr p ∧ Py.contains word p = inr false ∧
    Py.getitem d "safe" = inr s ∧ Py.contains word s = inr false ∧
    Py.getitem d "unsafe" = inr u ∧ Py.contains word u = inr false.
Proof.
  run_E. split.
  - intros H. repeat case_match; simplify_eq/=.
    eexists _, _, _. repeat split; try done.
    by destruct b1.
  - intros (p & s & u & -> & -> & -> & -> & -> & ->). done.
Qed.

(** The condition fails without raising exactly when the word is found
    in the first of the three lists that is looked at. *)
Lemma is_new_false word d :
  is_new word d = inr false ↔
  ∃ p, Py.getitem d "pending" = inr p ∧
    (Py.contains word p = inr true ∨
     Py.contains word p = inr false ∧
     ∃ s, Py.getitem d "safe" = inr s ∧
       (Py.contains word s = inr true ∨
        Py.contains word s = inr false ∧
        ∃ u, Py.getitem d "unsafe" = inr u ∧ Py.contains word u = inr true)).
Proof.
  run_E. split.
  - intros H. repeat case_match; simplify_eq/=; try (eexists; split; [done|]);
      first [ by left | right; split; [done|] ];
      try (eexists; split; [done|]); first [ by left | right; split; [done|] ].
    eexists; split; [done|]. by destruct b1.
  - intros (p & -> & [->|[-> (s & -> & [->|[-> (u & -> & ->)]])]]); done.
Qed.

Lemma add_word_old word d : is_new word d = inr false → add_word word d = inr d.
Proof. unfold add_word, mbind, E_bind. by intros ->. Qed.

Lemma add_word_raise word d e : is_new word d = inl e → add_word word d = inl e.
Proof. unfold add_word, mbind, E_bind. by intros ->. Qed.

Lemma add_word_new word d :
  is_new word d = inr true →
  match Py.getitem d "pending" with
  | inr (JArr items) =>
      add_word word d
      = inr (Py.mutated d "pending" (JArr (items ++ [JStr (Str.points word)])))
  | _ => add_word word d = inl AttributeError
  end.
Proof.
  intros Hn. pose proof Hn as (p & s & u & Hp & Hcp & _)%is_new_true.
  unfold add_word, mbind, E_bind. rewrite Hn, Hp.
  destruct p; try done.
Qed.

(** What a cycle that returns has done to the record. *)
Lemma add_word_inr word d d' :
  add_word word d = inr d' →
  is_new word d = inr false ∧ d' = d ∨
  ∃ items, is_new word d = inr true ∧
    Py.getitem d "pending" = inr (JArr items) ∧
    d' = Py.mutated d "pending" (JArr (items ++ [JStr (Str.points word)])).
Proof.
  intros Ha. destruct (is_new word d) as [e|[]] eqn:Hn.
  - rewrite (add_word_raise _ _ e) in Ha; done.
  - right. pose proof (add_word_new _ _ Hn) as Hw.
    destruct (Py.getitem d "pending") as [|[]]; try congruence.
    eexists. split; [done|]. split; [done|]. congruence.
  - left. rewrite add_word_old in Ha by done. by injection Ha as <-.
Qed.

(** After a cycle that returns, the word is found. *)
Lemma add_word_settles word d d' :
  add_word word d = inr d' → is_new word d' = inr false.
Proof.
  intros [[? ->]|(items & Hn & Hp & ->)]%add_word_inr; [done|].
  apply is_new_false. eexists. split; [by eapply getitem_mutated_eq|].
  left. rewrite contains_array. f_equal. apply bool_decide_eq_true.
  rewrite strings_app. apply elem_of_app. right. cbn. left.
Qed.

(** A word that is found stays found when another one is added. *)
Lemma is_new_false_mono word word' d d' :
  is_new word d = inr false → add_word word' d = inr d' →
  is_new word d' = inr false.
Proof.
  intros Hf [[? ->]|(items & Hn & Hp & ->)]%add_word_inr; [done|].
  apply is_new_false in Hf as (p & Hp' & Hf). rewrite Hp in Hp'. injection Hp' as <-.
  apply is_new_false. eexists. split; [by eapply getitem_mutated_eq|].
  rewrite !contains_array in *. rewrite strings_app.
  destruct (decide (Str.points word ∈ strings items ++ strings [JStr (Str.points word')]))
    as [Hin|Hin].
  - left. f_equal. by apply bool_decide_eq_true.
  - right. split; [f_equal; by apply bool_decide_eq_false|].
    rewrite !getitem_mutated_ne by done.
    destruct Hf as [Hf|[_ Hf]]; [|done].
    injection Hf as Hf%bool_decide_eq_true. exfalso. apply Hin, elem_of_app. by left.
Qed.

(** A record that a cycle returns can be written exactly when the one
    it was given can: the word it may have got is plain text. *)
Lemma add_word_encodable word d d' :
  add_word word d = inr d' → Py.encodable d' = Py.encodable d.
Proof.
  intros [[? ->]|(items & Hn & Hp & ->)]%add_word_inr; [done|].
  eapply encodable_mutated; [done|]. apply encodable_append.
Qed.

End cycle.

(** ** One work item *)

Section item.

Lemma is_new_empty_record word : is_new word empty_record = inr true.
Proof. reflexivity. Qed.

Lemma encodable_empty_record : Py.encodable empty_record = true.
Proof. reflexivity. Qed.

Lemma merge_pair_skip word pos fs :
  file_map !! pos = None → merge_pair word pos fs = Result (inr ()) fs [].
Proof. unfold merge_pair. by intros ->. Qed.

Lemma merge_pair_run word pos path fs :
  file_map !! pos = Some path →
  merge_pair word pos fs =
  let seen := EvExists path :: match fs !! path with
                               | Some _ => [EvRead path]
                               | None => []
                               end in
  match fs !! path with
  | Some Unparsable => Result (inl JSONDecodeError) fs seen
  | f =>
      match add_word word (content f) with
      | inl e => Result (inl e) fs seen
      | inr d' =>
          if Py.encodable d'
          then Result (inr ()) (<[path := Document d']> fs) (seen ++ [EvWrite path d'])
          else Result (inl UnicodeEncodeError) (<[path := Unparsable]> fs)
                      (seen ++ [EvTruncate path])
      end
  end.
Proof.
  intros Hp. unfold merge_pair. rewrite Hp.
  rewrite bind_run. unfold load_or_create_json.
  destruct (fs !! path) as [[|d]|] eqn:Hf; cbn [outcome files trace content]; [done|..];
    rewrite bind_run; unfold lift; cbn [outcome files trace];
    (destruct (add_word word _) as [e|d']; [reflexivity|]);
    unfold save_json; by destruct (Py.encodable d').
Qed.

(** A work item that returns has saved what the cycle made of the store. *)
Lemma merge_pair_ok word pos fs :
  outcome (merge_pair word pos fs) = inr () →
  match file_map !! pos with
  | None => files (merge_pair word pos fs) = fs
  | Some path =>
      ∃ d', add_word word (content (fs !! path)) = inr d' ∧
        fs !! path ≠ Some Unparsable ∧ Py.encodable d' = true ∧
        files (merge_pair word pos fs) = <[path := Document d']> fs
  end.
Proof.
  destruct (file_map !! pos) as [path|] eqn:Hp; [|by rewrite merge_pair_skip].
  rewrite (merge_pair_run _ _ path) by done. cbn zeta.
  destruct (fs !! path) as [[|d]|]; [done|..]; cbn [content];
    (destruct (add_word word _) as [e|d'] eqn:Ha; [done|]);
    (destruct (Py.encodable d') eqn:He; [|done]); by exists d'.
Qed.

(** A work item leaves the files as they are, or adds its word at the
    end of the pending list of one store, or leaves one store, whose
    record cannot be written, with a text that does not parse. *)
Lemma merge_pair_files word pos fs :
  let r := merge_pair word pos fs in
  files r = fs ∨
  (∃ path items,
    let d := content (fs !! path) in
    file_map !! pos = Some path ∧ outcome r = inr () ∧
    fs !! path ≠ Some Unparsable ∧
    is_new word d = inr true ∧
    Py.getitem d "pending" = inr (JArr items) ∧
    Py.encodable d = true ∧
    files r = <[path := Document (Py.mutated d "pending"
                                    (JArr (items ++ [JStr (Str.points word)])))]> fs) ∨
  (∃ path d,
    file_map !! pos = Some path ∧ outcome r = inl UnicodeEncodeError ∧
    fs !! path = Some (Document d) ∧ Py.encodable d = false ∧
    files r = <[path := Unparsable]> fs).
Proof.
  intros r. subst r.
  destruct (file_map !! pos) as [path|] eqn:Hp; [|left; by rewrite merge_pair_skip].
  rewrite (merge_pair_run _ _ path) by done. cbn zeta.
  destruct (fs !! path) as [[|d]|] eqn:Hf; [by left|..].
  - cbn [content].
    destruct (add_word word d) as [e|d'] eqn:Ha; [by left|].
    pose proof (add_word_encodable _ _ _ Ha) as He.
    destruct (Py.encodable d') eqn:He'.
    + apply add_word_inr in Ha as [[_ ->]|(items & Hn & Hg & ->)].
      * left. cbn. by apply insert_id.
      * right. left. exists path, items. rewrite Hf. cbn [content]. by repeat split.
    + right. right. exists path, d. by repeat split.
  - cbn [content].
    destruct (add_word word empty_record) as [e|d'] eqn:Ha; [by left|].
    pose proof (add_word_encodable _ _ _ Ha) as He. rewrite He. cbn.
    apply add_word_inr in Ha as [[Hn _]|(items & Hn & Hg & ->)].
    + by rewrite is_new_empty_record in Hn.
    + right. left. exists path, items. rewrite Hf. cbn [content]. by repeat split.
Qed.

Lemma grown_refl word_list f : grown word_list f f.
Proof.
  split; [done|]. split; [done|]. exists []. rewrite app_nil_r.
  split; [done|]. split; [constructor|]. by intros w ?%elem_of_nil.
Qed.

Lemma is_new_true_absent word d :
  is_new word d = inr true →
  (Str.points word ∉ words "pending" d) ∧ (Str.points word ∉ words "safe" d) ∧
  (Str.points word ∉ words "unsafe" d).
Proof.
  intros (p & s & u & ? & ? & ? & ? & ? & ?)%is_new_true.
  repeat split; by eapply contains_false_words.
Qed.

Lemma words_pending_array d items :
  Py.getitem d "pending" = inr (JArr items) → words "pending" d = strings items.
Proof. unfold words. by intros ->. Qed.

(** The store that got a word is the old one grown by it. *)
Lemma grown_appended word_list f0 (fs : gmap string file) path word items :
  let d := content (fs !! path) in
  word ∈ word_list →
  grown word_list f0 (fs !! path) →
  is_new word d = inr true →
  Py.getitem d "pending" = inr (JArr items) →
  grown word_list f0
    (Some (Document (Py.mutated d "pending" (JArr (items ++ [JStr (Str.points word)]))))).
Proof.
  intros d Hw Hg Hn Hi. subst d.
  destruct Hg as (Hs & Hu & added & Hp & Hnd & Hadd).
  apply is_new_true_absent in Hn as (Hnp & Hns & Hnu).
  unfold grown, safe, unsafe, pending in *. cbn [content].
  rewrite !words_mutated_other by done.
  erewrite words_mutated_pending by done.
  rewrite strings_app. cbn [strings omap list_omap app].
  rewrite <-(words_pending_array _ _ Hi), Hp in *.
  split; [done|]. split; [done|].
  exists (added ++ [word]). split; [by rewrite fmap_app, app_assoc|].
  split.
  - apply NoDup_app. split; [done|]. split; [|apply NoDup_singleton].
    intros w Hin ->%list_elem_of_singleton. apply Hnp, elem_of_app. right.
    by apply elem_of_points_fmap.
  - intros w [Hin|Hin]%elem_of_app; [by apply Hadd|].
    apply list_elem_of_singleton in Hin as ->.
    rewrite <-Hs, <-Hu. repeat split; try done.
    intros Hin. apply Hnp, elem_of_app. by left.
Qed.

End item.
(** ** Loops *)

Section loops.

Context {A : Type}.

Lemma for_each_cons (x : A) l (body : A → M ()) fs :
  for_each (x :: l) body fs =
  match outcome (body x fs) with
  | inl e => Result (inl e) (files (body x fs)) (trace (body x fs))
  | inr _ =>
      let r' := for_each l body (files (body x fs)) in
      Result (outcome r') (files r') (trace (body x fs) ++ trace r')
  end.
Proof. reflexivity. Qed.

(** A property of the files that every round keeps holds at the end,
    also when a round raises. *)
Lemma for_each_files_ind (P : gmap string file → Prop) l (body : A → M ()) :
  (∀ x fs, x ∈ l → P fs → P (files (body x fs))) →
  ∀ fs, P fs → P (files (for_each l body fs)).
Proof.
  induction l as [|x l IH]; intros Hstep fs HP; [done|].
  rewrite for_each_cons.
  assert (P (files (body x fs))) as HP' by (apply Hstep; [left | done]).
  destruct (outcome (body x fs)); [done|]. cbn.
  apply IH; [|done]. intros y fs' Hy. apply Hstep. by right.
Qed.

Lemma for_each_trace_Forall (Q : event → Prop) l (body : A → M ()) :
  (∀ x fs, x ∈ l → Forall Q (trace (body x fs))) →
  ∀ fs, Forall Q (trace (for_each l body fs)).
Proof.
  induction l as [|x l IH]; intros Hstep fs; [constructor|].
  rewrite for_each_cons.
  assert (Forall Q (trace (body x fs))) as HQ by (apply Hstep; left).
  destruct (outcome (body x fs)); [done|]. cbn.
  apply Forall_app. split; [done|]. apply IH. intros y fs' Hy. apply Hstep. by right.
Qed.

End loops.

(** A property of the files that every round that returns brings about
    holds at the end of a loop that returns. *)
Lemma for_each_ok_ind {A : Type} (P : gmap string file → Prop) l (body : A → M ()) :
  (∀ x fs, x ∈ l → outcome (body x fs) = inr () → P fs → P (files (body x fs))) →
  ∀ fs, outcome (for_each l body fs) = inr () → P fs → P (files (for_each l body fs)).
Proof.
  induction l as [|x l IH]; intros Hstep fs Hok HP; [done|].
  rewrite for_each_cons in Hok |- *.
  destruct (outcome (body x fs)) as [e|[]] eqn:Ho; [done|].
  cbn [outcome files] in Hok |- *.
  apply IH; [|done|].
  - intros y fs' Hy. apply Hstep. by right.
  - apply Hstep; [left|done..].
Qed.

(** What holds of the outcome and the files of a loop: [P] is kept by
    the rounds that return, and [Q] holds where the loop ends. *)
Lemma for_each_outcome_ind {A : Type} (P : gmap string file → Prop)
    (Q : exn + () → gmap string file → Prop) l (body : A → M ()) :
  (∀ x fs, x ∈ l → outcome (body x fs) = inr () → P fs → P (files (body x fs))) →
  (∀ x fs e, x ∈ l → outcome (body x fs) = inl e → P fs → Q (inl e) (files (body x fs))) →
  (∀ fs, P fs → Q (inr ()) fs) →
  ∀ fs, P fs → Q (outcome (for_each l body fs)) (files (for_each l body fs)).
Proof.
  intros Hok Hfail Hend. induction l as [|x l IH]; intros fs HP; [by apply Hend|].
  rewrite for_each_cons.
  destruct (outcome (body x fs)) as [e|[]] eqn:Ho; cbn [outcome files].
  - apply (Hfail x fs e); [left|done..].
  - apply IH.
    + intros y fs' Hy. apply Hok. by right.
    + intros y fs' e Hy. apply Hfail. by right.
    + apply Hok; [left|done..].
Qed.

(** ** The merge loop and the script as a whole *)

Section whole.

Lemma for_each_skip {A : Type} (l : list A) (body : A → M ()) :
  (∀ x fs, x ∈ l → body x fs = Result (inr ()) fs []) →
  ∀ fs, for_each l body fs = Result (inr ()) fs [].
Proof.
  induction l as [|x l IH]; intros Hskip fs; [done|].
  rewrite for_each_cons, Hskip by left. cbn.
  rewrite IH; [done|]. intros y fs' Hy. apply Hskip. by right.
Qed.

Lemma merge_files_ind (P : gmap string file → Prop) word_list pos_list :
  (∀ word pos fs, word ∈ word_list → pos ∈ pos_list →
     P fs → P (files (merge_pair word pos fs))) →
  ∀ fs, P fs → P (files (merge word_list pos_list fs)).
Proof.
  intros Hstep. unfold merge.
  apply for_each_files_ind. intros word fs Hw.
  apply for_each_files_ind. intros pos fs' Hp. by apply Hstep.
Qed.

Lemma merge_ok_ind (P : gmap string file → Prop) word_list pos_list :
  (∀ word pos fs, word ∈ word_list → pos ∈ pos_list →
     outcome (merge_pair word pos fs) = inr () →
     P fs → P (files (merge_pair word pos fs))) →
  ∀ fs, outcome (merge word_list pos_list fs) = inr () →
    P fs → P (files (merge word_list pos_list fs)).
Proof.
  intros Hstep. unfold merge.
  apply for_each_ok_ind. intros word fs Hw.
  apply for_each_ok_ind. intros pos fs' Hp. by apply Hstep.
Qed.

Lemma merge_outcome_ind (P : gmap string file → Prop)
    (Q : exn + () → gmap string file → Prop) word_list pos_list :
  (∀ word pos fs, word ∈ word_list → pos ∈ pos_list →
     outcome (merge_pair word pos fs) = inr () → P fs → P (files (merge_pair word pos fs))) →
  (∀ word pos fs e, word ∈ word_list → pos ∈ pos_list →
     outcome (merge_pair word pos fs) = inl e → P fs →
     Q (inl e) (files (merge_pair word pos fs))) →
  (∀ fs, P fs → Q (inr ()) fs) →
  ∀ fs, P fs →
    Q (outcome (merge word_list pos_list fs)) (files (merge word_list pos_list fs)).
Proof.
  intros Hok Hfail Hend. unfold merge.
  apply (for_each_outcome_ind P Q); [| |done].
  - intros word fs Hw Ho HP.
    assert (match outcome (for_each pos_list (λ pos, merge_pair word pos) fs) with
            | inr _ => P (files (for_each pos_list (λ pos, merge_pair word pos) fs))
            | inl _ => True
            end) as Hin; [|by rewrite Ho in Hin].
    apply (for_each_outcome_ind P
             (λ o fs', match o with inr _ => P fs' | inl _ => True end)); [|done..].
    intros pos fs'. by apply Hok.
  - intros word fs e Hw Ho HP.
    assert (match outcome (for_each pos_list (λ pos, merge_pair word pos) fs) with
            | inr _ => True
            | inl e' => Q (inl e') (files (for_each pos_list (λ pos, merge_pair word pos) fs))
            end) as Hin; [|by rewrite Ho in Hin].
    apply (for_each_outcome_ind P
             (λ o fs', match o with inr _ => True | inl e' => Q (inl e') fs' end));
      [| |done|done].
    + intros pos fs'. by apply Hok.
    + intros pos fs' e'. by apply Hfail.
Qed.

Lemma main_files_ind (P : gmap string file → Prop) WORDS POS ISSUE :
  (∀ word pos fs, word ∈ normalize WORDS → pos ∈ normalize POS →
     P fs → P (files (merge_pair word pos fs))) →
  ∀ fs, P fs → P (files (main WORDS POS ISSUE fs)).
Proof.
  intros Hstep fs HP.
  destruct (main_cases WORDS POS) as [H|[(?&?&?)|(?&?&?)]].
  - by rewrite main_no_input.
  - by rewrite main_invalid, rejection_files.
  - rewrite main_merge by done. cbn. by apply merge_files_ind.
Qed.

Lemma main_ok WORDS POS ISSUE fs :
  outcome (main WORDS POS ISSUE fs) = inr () →
  outcome (merge (normalize WORDS) (normalize POS) fs) = inr () ∧
  files (main WORDS POS ISSUE fs) = files (merge (normalize WORDS) (normalize POS) fs).
Proof.
  destruct (main_cases WORDS POS) as [H|[(?&?&?)|(?&?&?)]].
  - by rewrite main_no_input.
  - rewrite main_invalid by done. intros Hok. by apply rejection_outcome in Hok.
  - by rewrite main_merge.
Qed.

Lemma main_ok_ind (P : gmap string file → Prop) WORDS POS ISSUE :
  (∀ word pos fs, word ∈ normalize WORDS → pos ∈ normalize POS →
     outcome (merge_pair word pos fs) = inr () →
     P fs → P (files (merge_pair word pos fs))) →
  ∀ fs, outcome (main WORDS POS ISSUE fs) = inr () →
    P fs → P (files (main WORDS POS ISSUE fs)).
Proof.
  intros Hstep fs Hok HP. destruct (main_ok _ _ _ _ Hok) as [Hmok ->].
  by apply merge_ok_ind.
Qed.

Lemma merge_pair_trace word pos fs :
  Forall (λ e, store_event e = true) (trace (merge_pair word pos fs)).
Proof.
  destruct (file_map !! pos) as [path|] eqn:Hp.
  - rewrite (merge_pair_run _ _ path) by done. cbn zeta.
    destruct (fs !! path) as [[|d]|]; cbn [content];
      try (destruct (add_word word _) as [e|d']; [|destruct (Py.encodable d')]);
      cbn; repeat constructor.
  - rewrite merge_pair_skip by done. constructor.
Qed.

Lemma merge_trace word_list pos_list fs :
  Forall (λ e, store_event e = true) (trace (merge word_list pos_list fs)).
Proof.
  unfold merge. apply for_each_trace_Forall. intros word fs' _.
  apply for_each_trace_Forall. intros pos fs'' _. apply merge_pair_trace.
Qed.

Lemma merge_unrecognized word_list pos_list fs :
  (∀ pos, pos ∈ pos_list → file_map !! pos = None) →
  merge word_list pos_list fs = Result (inr ()) fs [].
Proof.
  intros Hun. unfold merge. apply for_each_skip. intros word fs' _.
  apply for_each_skip. intros pos fs'' Hp. by apply merge_pair_skip, Hun.
Qed.

(** What a work item does to one store: it grows by the word, or is
    left as it is, or is lost when its record cannot be written. *)
Lemma grown_merge_pair word_list f0 path word pos fs :
  word ∈ word_list →
  grown word_list f0 (fs !! path) →
  let f := files (merge_pair word pos fs) !! path in
  grown word_list f0 f ∧ Py.encodable (content f) = Py.encodable (content (fs !! path)) ∧
  (fs !! path ≠ Some Unparsable → f ≠ Some Unparsable) ∨
  f = Some Unparsable ∧ Py.encodable (content (fs !! path)) = false.
Proof.
  intros Hw Hg f. subst f.
  destruct (merge_pair_files word pos fs)
    as [->|[(P & items & _ & _ & _ & Hn & Hi & He & ->)|(P & d & _ & _ & Hl & He & ->)]];
    [by left|..].
  - left. destruct (decide (P = path)) as [->|Hne]; [|by rewrite lookup_insert_ne].
    rewrite lookup_insert_eq. split; [by apply grown_appended|]. split; [|done].
    cbn [content]. rewrite He. erewrite encodable_mutated; [done..|apply encodable_append].
  - destruct (decide (P = path)) as [->|Hne]; [|left; by rewrite lookup_insert_ne].
    right. rewrite lookup_insert_eq, Hl. done.
Qed.

Lemma grown_merge_pair_ok word_list f0 path word pos fs :
  word ∈ word_list →
  outcome (merge_pair word pos fs) = inr () →
  grown word_list f0 (fs !! path) →
  grown word_list f0 (files (merge_pair word pos fs) !! path).
Proof.
  intros Hw Hok Hg.
  destruct (merge_pair_files word pos fs)
    as [->|[(P & items & _ & _ & _ & Hn & Hi & He & ->)|(P & d & _ & Ho & _)]];
    [done| |congruence].
  destruct (decide (P = path)) as [->|Hne]; [|by rewrite lookup_insert_ne].
  rewrite lookup_insert_eq. by apply grown_appended.
Qed.

(** What a run does to one store: it has grown and can be written as
    well as before, or it is lost and could not be written. *)
Lemma grown_main WORDS POS ISSUE fs path :
  let f0 := fs !! path in
  let f := files (main WORDS POS ISSUE fs) !! path in
  grown (normalize WORDS) f0 f ∧ Py.encodable (content f) = Py.encodable (content f0) ∧
  (f0 ≠ Some Unparsable → f ≠ Some Unparsable) ∨
  f = Some Unparsable ∧ f0 ≠ Some Unparsable ∧ Py.encodable (content f0) = false.
Proof.
  intros f0 f. subst f0 f.
  apply (main_files_ind
           (λ fs', grown (normalize WORDS) (fs !! path) (fs' !! path) ∧
                   Py.encodable (content (fs' !! path)) = Py.encodable (content (fs !! path)) ∧
                   (fs !! path ≠ Some Unparsable → fs' !! path ≠ Some Unparsable) ∨
                   fs' !! path = Some Unparsable ∧ fs !! path ≠ Some Unparsable ∧
                   Py.encodable (content (fs !! path)) = false)).
  - intros word pos fs' Hw _ [(Hg & He & Hk)|(Hu & Hnu & He)].
    + destruct (grown_merge_pair _ _ path word pos fs' Hw Hg)
        as [(Hg' & He' & Hk')|[Hu' He']].
      * left. split; [done|]. split; [by rewrite He'|]. auto.
      * right. split; [done|]. split; [|by rewrite <-He].
        intros Hbad. rewrite Hbad in He. cbn [content] in He.
        rewrite encodable_empty_record in He. congruence.
    + right. split; [|done].
      destruct (merge_pair_files word pos fs')
        as [->|[(P & items & _ & _ & Hnb & _ & _ & _ & ->)|(P & d & _ & _ & Hl & _ & ->)]];
        [done|..]; (destruct (decide (P = path)) as [->|Hne];
                    [congruence || by rewrite lookup_insert_eq | by rewrite lookup_insert_ne]).
  - left. split; [apply grown_refl | done].
Qed.

(** After a run that ends with success every store is the old one grown. *)
Lemma grown_main_ok WORDS POS ISSUE fs path :
  outcome (main WORDS POS ISSUE fs) = inr () →
  grown (normalize WORDS) (fs !! path) (files (main WORDS POS ISSUE fs) !! path).
Proof.
  intros Hok.
  apply (main_ok_ind (λ fs', grown (normalize WORDS) (fs !! path) (fs' !! path)));
    [|done|apply grown_refl].
  intros word pos fs' Hw _ Hok' Hg. by apply grown_merge_pair_ok.
Qed.

(** A store is left with a text that does not parse only by a save
    that raised, which ends the run. *)
Lemma lost_store_outcome WORDS POS ISSUE fs path :
  fs !! path ≠ Some Unparsable →
  files (main WORDS POS ISSUE fs) !! path = Some Unparsable →
  outcome (main WORDS POS ISSUE fs) = inl UnicodeEncodeError.
Proof.
  intros Hnu.
  destruct (main_cases WORDS POS) as [H|[(?&?&?)|(?&?&?)]].
  - by rewrite main_no_input.
  - by rewrite main_invalid, rejection_files.
  - rewrite main_merge by done. cbn [outcome files].
    apply (merge_outcome_ind
             (λ fs', fs' !! path ≠ Some Unparsable)
             (λ o fs', fs' !! path = Some Unparsable → o = inl UnicodeEncodeError));
      [| |done|done].
    + intros word pos fs' _ _ Hok Hn.
      pose proof (merge_pair_ok word pos fs' Hok) as Hstep.
      destruct (file_map !! pos) as [Q|]; [|by rewrite Hstep].
      destruct Hstep as (d' & _ & _ & _ & ->).
      destruct (decide (Q = path)) as [->|Hne];
        [by rewrite lookup_insert_eq | by rewrite lookup_insert_ne].
    + intros word pos fs' e _ _ Ho Hn.
      destruct (merge_pair_files word pos fs')
        as [->|[(Q & items & _ & Hok & _)|(Q & d & _ & Ho' & _)]]; [done|congruence|].
      intros _. congruence.
Qed.

Lemma exists_invalid WORDS :
  (∃ w, w ∈ normalize WORDS ∧ Str.is_word w = false) ↔
  invalid_words (normalize WORDS) ≠ [].
Proof.
  rewrite invalid_words_nil. split.
  - intros (w & Hw & Hf) Hall. specialize (Hall w Hw).
    rewrite (re_match_az_normalize WORDS) in Hall by done. congruence.
  - intros Hne.
    destruct (decide (Exists (λ w, Str.is_word w = false) (normalize WORDS))) as [Hex|Hex].
    + apply Exists_exists in Hex. done.
    + exfalso. apply Hne. intros w Hw.
      rewrite (re_match_az_normalize WORDS) by done.
      apply not_false_iff_true. intros Hf. apply Hex, Exists_exists. eauto.
Qed.

End whole.
(** ** The gates *)

(** C1.  A batch with a normalised word that is not one or more of
    [a]..[z] ends with a failure status, and no store of any tag is read,
    created or written: the files are what they were.  This holds whatever
    the issue number is, also when the comment cannot be posted. *)
Theorem invalid_word_rejects_batch WORDS POS ISSUE fs :
  (∃ w, w ∈ normalize WORDS ∧ Str.is_word w = false) →
  let r := main WORDS POS ISSUE fs in
  exit_status (outcome r) = 1%Z ∧ files r = fs ∧
  Forall (λ e, store_event e = false) (trace r).
Proof.
  intros Hbad%exists_invalid r. subst r.
  destruct (main_cases WORDS POS) as [H|[(?&?&?)|(?&?&?)]]; [| |done].
  - rewrite main_no_input by done. repeat split. by repeat constructor.
  - rewrite main_invalid by done.
    destruct (rejection_run ISSUE (invalid_message (invalid_words (normalize WORDS))) fs)
      as (Hf & Hs & _ & _ & Ht & _).
    done.
Qed.

Lemma invalid_word_rejects_batch_witness :
  (∃ w, w ∈ normalize "123abc" ∧ Str.is_word w = false) ∧
  let r := main "123abc" "noun" None ∅ in
  exit_status (outcome r) = 1%Z ∧ files r = ∅ ∧
  Forall (λ e, store_event e = false) (trace r).
Proof.
  assert (∃ w, w ∈ normalize "123abc" ∧ Str.is_word w = false) as H.
  { exists "123abc". split; [vm_compute; left | reflexivity]. }
  split; [exact H|]. exact (invalid_word_rejects_batch "123abc" "noun" None ∅ H).
Defined.

(** C8.  When no word or no tag is left after trimming and dropping the
    blank lines, the script prints that there is no valid input and ends
    with a failure status; it calls no notifier and touches no store. *)
Theorem empty_input_rejected WORDS POS ISSUE fs :
  normalize WORDS = [] ∨ normalize POS = [] →
  let r := main WORDS POS ISSUE fs in
  outcome r = inl (SystemExit 1) ∧ exit_status (outcome r) = 1%Z ∧
  trace r = [EvPrint "No valid words or POS provided."] ∧
  files r = fs.
Proof. intros H r. subst r. by rewrite main_no_input. Qed.

Lemma empty_input_rejected_witness :
  (normalize "cat" = [] ∨ normalize "  " = []) ∧
  let r := main "cat" "  " None ∅ in
  outcome r = inl (SystemExit 1) ∧ exit_status (outcome r) = 1%Z ∧
  trace r = [EvPrint "No valid words or POS provided."] ∧
  files r = ∅.
Proof.
  assert (normalize "cat" = [] ∨ normalize "  " = []) as H by (right; reflexivity).
  split; [exact H|]. exact (empty_input_rejected "cat" "  " None ∅ H).
Defined.

(** C6, as amended.  When normalised words fail the format rule and the
    issue number is an integer, the validator makes one message that
    names every one of them, joined by commas, inside its explanatory
    text; it posts the message to the issue of that number, prints it and
    ends with a failure status.  With at least one tag, which is when the
    run reaches the validator, this is what the script does.  No other
    path of the script calls the notifier: a comment in the trace of a
    run means that words failed the rule, that there was a tag, that the
    issue number is the integer the comment went to, and that the run is
    the one described. *)
Theorem invalid_words_reported WORDS POS ISSUE number fs :
  let word_list := normalize WORDS in
  let offending := List.filter (λ w, negb (Str.is_word w)) word_list in
  let message :=
    "The following words are invalid and cannot be processed: "
    +:+ Str.join ", " offending +:+ ". Only alphabetic words are allowed." in
  (offending ≠ [] → Py.int ISSUE = inr number →
     validate_words ISSUE word_list fs
     = Result (inl (SystemExit 1)) fs [EvComment number message; EvPrint message] ∧
     (∀ w, w ∈ word_list → Str.is_word w = false → Str.contains w message = true) ∧
     (normalize POS ≠ [] →
        main WORDS POS ISSUE fs
        = Result (inl (SystemExit 1)) fs [EvComment number message; EvPrint message])) ∧
  (∀ n body, EvComment n body ∈ trace (main WORDS POS ISSUE fs) →
     offending ≠ [] ∧ normalize POS ≠ [] ∧ Py.int ISSUE = inr n ∧ body = message ∧
     main WORDS POS ISSUE fs
     = Result (inl (SystemExit 1)) fs [EvComment n message; EvPrint message]).
Proof.
  intros word_list offending message.
  assert (invalid_words word_list = offending) as Hinv
    by apply invalid_words_normalize.
  split.
  - intros Hne Hint. split; [|split].
    + rewrite validate_words_fail by by rewrite Hinv.
      unfold rejection. by rewrite Hint, Hinv.
    + intros w Hw Hf. apply contains_app_l, contains_app_r, contains_join.
      apply list_elem_of_In, filter_In. split; [by apply list_elem_of_In|].
      by rewrite Hf.
    + intros Hp.
      assert (normalize WORDS ≠ []) as Hw.
      { intros Hnil. apply Hne. subst offending word_list. by rewrite Hnil. }
      assert (invalid_words (normalize WORDS) ≠ []) as Hi.
      { fold word_list. by rewrite Hinv. }
      rewrite main_invalid by done. fold word_list.
      unfold rejection. by rewrite Hint, Hinv.
  - intros n body Hin.
    destruct (main_cases WORDS POS) as [H|[(?&?&Hi)|(?&?&Hi)]].
    + rewrite main_no_input in Hin by done.
      by apply list_elem_of_singleton in Hin.
    + pose proof (main_invalid WORDS POS ISSUE fs ltac:(done) ltac:(done) Hi) as Hm.
      fold word_list in Hm, Hi. rewrite Hinv in Hm, Hi.
      change (invalid_message offending) with message in Hm.
      rewrite Hm in Hin |- *.
      destruct (rejection_run ISSUE message fs) as (_ & _ & _ & _ & _ & Ht).
      apply Ht in Hin as [[=]|(number' & Hint & [= -> ->])].
      unfold rejection. rewrite Hint. done.
    + rewrite main_merge in Hin by done. cbn in Hin.
      apply elem_of_cons in Hin as [?|Hin]; [done|].
      apply elem_of_app in Hin as [Hin|Hin].
      * pose proof (merge_trace (normalize WORDS) (normalize POS) fs) as Ht.
        rewrite Forall_forall in Ht. by apply Ht in Hin.
      * destruct (outcome _); [by apply elem_of_nil in Hin|].
        by apply list_elem_of_singleton in Hin.
Qed.

Lemma invalid_words_reported_witness :
  main ("123abc" +:+ nl +:+ "dog" +:+ nl +:+ "x-y") "noun" (Some "42") ∅
  = Result (inl (SystemExit 1)) ∅
      [EvComment 42 "The following words are invalid and cannot be processed: 123abc, x-y. Only alphabetic words are allowed.";
       EvPrint "The following words are invalid and cannot be processed: 123abc, x-y. Only alphabetic words are allowed."].
Proof.
  pose proof (invalid_words_reported ("123abc" +:+ nl +:+ "dog" +:+ nl +:+ "x-y") "noun"
                (Some "42") 42 ∅) as [H _].
  destruct H as (_ & _ & H); [by vm_compute | by vm_compute |].
  apply H. by vm_compute.
Defined.

(** C6, as stated: with an invalid word in the batch the message need
    not be reported.  When the issue number is not set or is not an
    integer, [int(issue_number)] raises before the comment is posted and
    before the message is printed; and with no tag the run ends at the
    check for empty input, which prints another text. *)
Lemma invalid_words_unreported :
  (∃ w, w ∈ normalize "123abc" ∧ Str.is_word w = false) ∧
  main "123abc" "noun" None ∅ = Result (inl TypeError) ∅ [] ∧
  main "123abc" "noun" (Some "seven") ∅ = Result (inl ValueError) ∅ [] ∧
  main "123abc" "" (Some "7") ∅ = Result (inl (SystemExit 1)) ∅ [EvPrint no_input_text].
Proof.
  split; [|by vm_compute].
  exists "123abc". split; [vm_compute; left | reflexivity].
Qed.

(** The check for empty input comes first: with no tag the run ends
    there, before any word is validated. *)
Example empty_pos_precedes_validation :
  main "123abc" "" None ∅ = Result (inl (SystemExit 1)) ∅ [EvPrint no_input_text].
Proof. reflexivity. Qed.

(** C7, as amended.  A tag outside the four recognised ones never makes
    a run fail and never touches a store: the loop skips every pair with
    such a tag without any effect, on a batch all of whose tags are
    unrecognised the merge loop does nothing at all and no store is read
    or written, and the script ends with success when the batch has a
    word, a tag and no invalid word, that is, when it is not rejected by
    the checks that come before the loop. *)
Theorem unrecognized_pos_skipped :
  (∀ word pos fs, file_map !! pos = None →
     merge_pair word pos fs = Result (inr ()) fs []) ∧
  (∀ word_list pos_list fs,
     (∀ pos, pos ∈ pos_list → file_map !! pos = None) →
     merge word_list pos_list fs = Result (inr ()) fs []) ∧
  (∀ WORDS POS ISSUE fs,
     (∀ pos, pos ∈ normalize POS → file_map !! pos = None) →
     let r := main WORDS POS ISSUE fs in
     files r = fs ∧ Forall (λ e, store_event e = false) (trace r) ∧
     (normalize WORDS ≠ [] → normalize POS ≠ [] →
      (∀ w, w ∈ normalize WORDS → Str.is_word w = true) →
      r = Result (inr ()) fs [EvMkdir base_path; EvPrint success_text] ∧
      exit_status (outcome r) = 0%Z)).
Proof.
  split; [apply merge_pair_skip|]. split; [apply merge_unrecognized|].
  intros WORDS POS ISSUE fs Hun r. subst r.
  destruct (main_cases WORDS POS) as [H|[(?&?&Hi)|(Hw&Hp&Hi)]].
  - rewrite main_no_input by done. split; [done|]. split; [by repeat constructor|].
    intros ? ? _. by destruct H.
  - rewrite main_invalid by done.
    destruct (rejection_run ISSUE (invalid_message (invalid_words (normalize WORDS))) fs)
      as (Hf & _ & _ & _ & Ht & _).
    split; [done|]. split; [done|].
    intros _ _ Hall. exfalso. apply exists_invalid in Hi as (w & Hin & Hf').
    specialize (Hall w Hin). congruence.
  - rewrite main_merge, merge_unrecognized by done. cbn.
    split; [done|]. split; [by repeat constructor|]. done.
Qed.

Lemma unrecognized_pos_skipped_witness :
  main "cat" ("pronoun" +:+ nl +:+ "Article") None ∅
  = Result (inr ()) ∅ [EvMkdir base_path; EvPrint success_text].
Proof.
  destruct unrecognized_pos_skipped as (_ & _ & H).
  destruct (H "cat" ("pronoun" +:+ nl +:+ "Article") None ∅) as (_ & _ & H').
  - intros pos Hpos. vm_compute in Hpos.
    apply elem_of_cons in Hpos as [->|Hpos]; [reflexivity|].
    apply list_elem_of_singleton in Hpos as ->. reflexivity.
  - apply H'; [by vm_compute | by vm_compute |].
    intros w Hw. vm_compute in Hw. apply list_elem_of_singleton in Hw as ->. reflexivity.
Defined.

(** C7, as stated: a batch whose tags are all unrecognised need not end
    with success; an invalid word still rejects it, whatever the issue
    number is. *)
Lemma unrecognized_pos_may_fail :
  (∀ pos, pos ∈ normalize "pronoun" → file_map !! pos = None) ∧
  (∀ ISSUE, exit_status (outcome (main "123abc" "pronoun" ISSUE ∅)) = 1%Z) ∧
  main "123abc" "pronoun" (Some "7") ∅
  = Result (inl (SystemExit 1)) ∅
      [EvComment 7 "The following words are invalid and cannot be processed: 123abc. Only alphabetic words are allowed.";
       EvPrint "The following words are invalid and cannot be processed: 123abc. Only alphabetic words are allowed."].
Proof.
  split; [|split; [|by vm_compute]].
  - intros pos Hpos. vm_compute in Hpos.
    apply list_elem_of_singleton in Hpos as ->. reflexivity.
  - intros ISSUE. rewrite main_invalid by (by vm_compute). apply rejection_run.
Qed.

(** ** What a run does to the stores *)

Lemma file_map_cases pos path :
  file_map !! pos = Some path →
  (pos, path) ∈ [("adjective", "Sources/PhraseKit/Resources/_adjective.json");
                 ("adverb", "Sources/PhraseKit/Resources/_adverb.json");
                 ("noun", "Sources/PhraseKit/Resources/_noun.json");
                 ("verb", "Sources/PhraseKit/Resources/_verb.json")].
Proof. intros H. by apply elem_of_list_to_map_2 in H. Qed.

Lemma grown_disjoint_unique word_list f0 f :
  grown word_list f0 f → disjoint_unique f0 → disjoint_unique f.
Proof.
  unfold disjoint_unique. intros (-> & -> & added & -> & Hnd & Hadd).
  rewrite !NoDup_app. intros (Hp & Hps & Hs & Hsu & Hu).
  repeat split; try done.
  - intros w Hw (x & -> & Hin)%list_elem_of_fmap. apply Hadd in Hin. tauto.
  - by apply (@NoDup_fmap_2 _ _ Str.points points_Inj).
  - intros w [Hw|(x & -> & Hw)%list_elem_of_fmap]%elem_of_app; [by apply Hps|].
    apply Hadd in Hw as (_ & _ & ? & ?). intros [?|?]%elem_of_app; tauto.
Qed.

(** C3.  If, before a run, no store of a recognised tag has a word twice
    in one of its sets or in two of them, then the same holds after the
    run, whatever the input and however the run ends. *)
Theorem disjointness_preserved WORDS POS ISSUE fs :
  stores_disjoint_unique fs →
  stores_disjoint_unique (files (main WORDS POS ISSUE fs)).
Proof.
  intros Hinv pos path Hp.
  destruct (grown_main WORDS POS ISSUE fs path) as [[Hg _]|[-> _]].
  - eapply grown_disjoint_unique; [exact Hg | by eapply Hinv].
  - unfold disjoint_unique. apply (bool_decide_unpack _). by vm_compute.
Qed.

Lemma disjointness_preserved_witness :
  stores_disjoint_unique sample_files ∧
  stores_disjoint_unique
    (files (main ("dog" +:+ nl +:+ "emu" +:+ nl +:+ "emu") ("noun" +:+ nl +:+ "verb")
                 None sample_files)).
Proof.
  assert (stores_disjoint_unique sample_files) as H.
  { intros pos path Hp%file_map_cases.
    repeat (apply elem_of_cons in Hp as [[= -> ->]|Hp];
            [unfold disjoint_unique; apply (bool_decide_unpack _); by vm_compute|]).
    by apply elem_of_nil in Hp. }
  split; [exact H|]. exact (disjointness_preserved _ _ None sample_files H).
Defined.

(** C5, as amended.  In every run and for every store whose record can
    be written back, which is every store without a lone surrogate, the
    safe and the unsafe list are at the end what they were at the start,
    the pending list starts with what it was, so that no word is removed
    or moved, and no word added to it was already in the safe, unsafe or
    pending list; the record can still be written.  A store for which
    this fails has been left with a text that does not parse, by a save
    that raised. *)
Theorem only_pending_grows WORDS POS ISSUE fs path :
  let f0 := fs !! path in
  let f := files (main WORDS POS ISSUE fs) !! path in
  let kept :=
    safe f = safe f0 ∧ unsafe f = unsafe f0 ∧
    (∀ w, w ∈ pending f0 → w ∈ pending f) ∧
    ∃ added : list string, pending f = pending f0 ++ (Str.points <$> added) ∧
      ∀ w, w ∈ added →
        (Str.points w ∉ safe f0) ∧ (Str.points w ∉ unsafe f0) ∧
        (Str.points w ∉ pending f0) ∧ w ∈ normalize WORDS in
  (Py.encodable (content f0) = true → kept ∧ Py.encodable (content f) = true) ∧
  (kept ∨
   f = Some Unparsable ∧ f0 ≠ Some Unparsable ∧
   outcome (main WORDS POS ISSUE fs) = inl UnicodeEncodeError).
Proof.
  intros f0 f kept.
  assert (grown (normalize WORDS) f0 f → kept) as Hkept.
  { intros (Hs & Hu & added & Hp & _ & Hadd).
    split; [done|]. split; [done|]. split.
    - intros w Hw. rewrite Hp. apply elem_of_app. by left.
    - exists added. split; [done|]. intros w Hw. apply Hadd in Hw. tauto. }
  destruct (grown_main WORDS POS ISSUE fs path) as [(Hg & He & _)|(Hu & Hnu & He)].
  - fold f0 f in Hg, He.
    split; [|by left; apply Hkept]. intros He0. split; [by apply Hkept | congruence].
  - fold f0 in Hnu, He. fold f in Hu. split; [congruence|]. right.
    split; [done|]. split; [done|].
    by apply (lost_store_outcome WORDS POS ISSUE fs path).
Qed.

Lemma only_pending_grows_witness :
  Py.encodable (content (sample_files !! "Sources/PhraseKit/Resources/_noun.json")) = true ∧
  safe (files (main ("emu" +:+ nl +:+ "dog") "noun" None sample_files)
          !! "Sources/PhraseKit/Resources/_noun.json")
  = [Str.points "dog"] ∧
  pending (files (main ("emu" +:+ nl +:+ "dog") "noun" None sample_files)
             !! "Sources/PhraseKit/Resources/_noun.json")
  = [Str.points "cat"; Str.points "emu"].
Proof.
  assert (Py.encodable (content (sample_files !! "Sources/PhraseKit/Resources/_noun.json"))
          = true) as H by (by vm_compute).
  split; [exact H|].
  destruct (only_pending_grows ("emu" +:+ nl +:+ "dog") "noun" None sample_files
              "Sources/PhraseKit/Resources/_noun.json") as [Hk _].
  destruct (Hk H) as [(Hs & _) _]. split; [by rewrite Hs | by vm_compute].
Defined.

(** C5, as stated: a store that matches the schema and holds a lone
    surrogate in its safe list loses its three lists in a run that gets
    a tag of it: the save raises after the file was emptied. *)
Lemma lists_may_be_lost :
  let path := "Sources/PhraseKit/Resources/_noun.json" in
  let r := main "emu" "noun" None sample_surrogate_files in
  schema sample_surrogate_store = true ∧
  safe (sample_surrogate_files !! path) = [[55357%N]] ∧
  pending (sample_surrogate_files !! path) = [Str.points "cat"] ∧
  outcome r = inl UnicodeEncodeError ∧
  files r !! path = Some Unparsable ∧
  safe (files r !! path) = [] ∧ pending (files r !! path) = [].
Proof. by vm_compute. Qed.
(** ** Stores that match the schema *)

Section with_schema.

Lemma string_array_inv x : string_array x = true → ∃ l, x = JArr (JStr <$> l).
Proof.
  destruct x as [| | | |items|]; try done. simpl. intros H.
  exists (strings items). f_equal.
  induction items as [|x items IH]; [done|].
  simpl in H. apply andb_true_iff in H as [Hx H].
  destruct x; try done. unfold strings in *. cbn [omap list_omap fmap list_fmap].
  f_equal. by apply IH.
Qed.

Lemma string_array_fmap l : string_array (JArr (JStr <$> l)) = true.
Proof. simpl. induction l as [|x l IH]; [done|]. by rewrite fmap_cons. Qed.

Lemma schema_inv d :
  schema d = true →
  ∃ lp ls lu,
    Py.getitem d "pending" = inr (JArr (JStr <$> lp)) ∧
    Py.getitem d "safe" = inr (JArr (JStr <$> ls)) ∧
    Py.getitem d "unsafe" = inr (JArr (JStr <$> lu)).
Proof.
  destruct d as [| | | | |kvs]; try done. unfold schema, required. cbn [forallb Py.getitem].
  intros H. repeat (apply andb_true_iff in H as [? H]).
  destruct (Py.assoc (Str.points "pending") kvs) as [p|]; [|done].
  destruct (Py.assoc (Str.points "safe") kvs) as [s|]; [|done].
  destruct (Py.assoc (Str.points "unsafe") kvs) as [u|]; [|done].
  destruct (string_array_inv p) as [lp ->]; [done|].
  destruct (string_array_inv s) as [ls ->]; [done|].
  destruct (string_array_inv u) as [lu ->]; [done|].
  by exists lp, ls, lu.
Qed.

Lemma schema_intro d lp ls lu :
  Py.getitem d "pending" = inr (JArr (JStr <$> lp)) →
  Py.getitem d "safe" = inr (JArr (JStr <$> ls)) →
  Py.getitem d "unsafe" = inr (JArr (JStr <$> lu)) →
  schema d = true.
Proof.
  destruct d as [| | | | |kvs]; try done. unfold schema, required. cbn [forallb Py.getitem].
  destruct (Py.assoc (Str.points "pending") kvs) as [p|]; [|done].
  destruct (Py.assoc (Str.points "safe") kvs) as [s|]; [|done].
  destruct (Py.assoc (Str.points "unsafe") kvs) as [u|]; [|done].
  intros [= ->] [= ->] [= ->]. by rewrite !string_array_fmap.
Qed.

Lemma schema_empty_record : schema empty_record = true.
Proof. reflexivity. Qed.

Lemma sound_empty_record : sound empty_record.
Proof. by split. Qed.

(** On a record that matches the schema the condition of line 83 says
    that the word is in none of the three lists, and raises nothing. *)
Lemma is_new_schema word d :
  schema d = true → is_new word d = inr (negb (listed word d)).
Proof.
  intros (lp & ls & lu & Hp & Hs & Hu)%schema_inv.
  unfold listed, words. rewrite Hp, Hs, Hu, !strings_fmap_JStr.
  unfold is_new, mbind, E_bind, mret, E_ret. rewrite Hp, Hs, Hu, !contains_array.
  rewrite !strings_fmap_JStr.
  repeat case_bool_decide; try done; exfalso;
    repeat match goal with
           | H : context [_ ∈ _ ++ _] |- _ => rewrite elem_of_app in H
           end; tauto.
Qed.

Lemma schema_appended d items word :
  schema d = true → Py.getitem d "pending" = inr (JArr items) →
  schema (Py.mutated d "pending" (JArr (items ++ [JStr (Str.points word)]))) = true.
Proof.
  intros (lp & ls & lu & Hp & Hs & Hu)%schema_inv Hi.
  rewrite Hp in Hi. injection Hi as <-.
  apply (schema_intro _ (lp ++ [Str.points word]) ls lu).
  - erewrite getitem_mutated_eq by done. by rewrite fmap_app.
  - by rewrite getitem_mutated_ne.
  - by rewrite getitem_mutated_ne.
Qed.

(** A cycle on such a record returns a record that matches the schema,
    with the word at the end of [pending] when it was in no list, and
    the same record when it was in one. *)
Lemma add_word_schema word d :
  schema d = true →
  ∃ d', add_word word d = inr d' ∧ schema d' = true ∧
    words "pending" d'
    = words "pending" d ++ (if listed word d then [] else [Str.points word]) ∧
    words "safe" d' = words "safe" d ∧
    words "unsafe" d' = words "unsafe" d ∧
    (listed word d = true → d' = d).
Proof.
  intros Hs. pose proof (is_new_schema word d Hs) as Hn.
  destruct (listed word d) eqn:Hl; cbn [negb] in Hn.
  - exists d. rewrite add_word_old by done. by rewrite app_nil_r.
  - pose proof (add_word_new _ _ Hn) as Ha.
    destruct (schema_inv d Hs) as (lp & ls & lu & Hp & Hsf & Hu).
    rewrite Hp in Ha. eexists. split; [exact Ha|].
    split; [|split; [|split; [|split]]].
    + by apply schema_appended.
    + erewrite words_mutated_pending by done.
      by rewrite (words_pending_array _ _ Hp), strings_app.
    + by rewrite words_mutated_other.
    + by rewrite words_mutated_other.
    + done.
Qed.

Lemma batch_sound_loaded pos_list fs pos path :
  batch_sound pos_list fs → pos ∈ pos_list → file_map !! pos = Some path →
  fs !! path ≠ Some Unparsable ∧ sound (content (fs !! path)).
Proof.
  intros Hfs Hin Hp. destruct (Hfs pos path Hin Hp) as [->|(d & -> & Hd)]; [|done].
  split; [done|]. apply sound_empty_record.
Qed.

Lemma stores_sound_batch pos_list fs : stores_sound fs → batch_sound pos_list fs.
Proof. intros Hfs pos path _. apply Hfs. Qed.

Lemma stores_sound_loaded fs pos path :
  stores_sound fs → file_map !! pos = Some path →
  fs !! path ≠ Some Unparsable ∧ sound (content (fs !! path)).
Proof.
  intros Hfs Hp. apply (batch_sound_loaded [pos] fs pos); [|left|done].
  by apply stores_sound_batch.
Qed.

(** The work item on a store whose record matches the schema and can be
    written back. *)
Lemma merge_pair_sound word pos path fs :
  file_map !! pos = Some path →
  fs !! path ≠ Some Unparsable → sound (content (fs !! path)) →
  ∃ d', add_word word (content (fs !! path)) = inr d' ∧ sound d' ∧
    merge_pair word pos fs =
    Result (inr ()) (<[path := Document d']> fs)
           (EvExists path :: match fs !! path with
                             | Some _ => [EvRead path]
                             | None => []
                             end ++ [EvWrite path d']).
Proof.
  intros Hp Hu [Hs He].
  destruct (add_word_schema word _ Hs) as (d' & Ha & Hs' & _).
  pose proof (add_word_encodable _ _ _ Ha) as He'. rewrite He in He'.
  exists d'. split; [done|]. split; [done|].
  rewrite (merge_pair_run _ _ path) by done. cbn zeta.
  destruct (fs !! path) as [[|d]|]; [done|..]; cbn [content] in *; by rewrite Ha, He'.
Qed.

Lemma stores_sound_merge_pair word pos fs :
  stores_sound fs →
  outcome (merge_pair word pos fs) = inr () ∧
  stores_sound (files (merge_pair word pos fs)).
Proof.
  intros Hfs. destruct (file_map !! pos) as [path|] eqn:Hp.
  - destruct (stores_sound_loaded fs pos path Hfs Hp) as [Hu Hs].
    destruct (merge_pair_sound word pos path fs Hp Hu Hs) as (d' & _ & Hs' & ->).
    split; [done|]. cbn [files]. intros pos' path' Hp'.
    destruct (decide (path = path')) as [<-|Hne].
    + right. exists d'. by rewrite lookup_insert_eq.
    + rewrite lookup_insert_ne by done. by eapply Hfs.
  - by rewrite merge_pair_skip.
Qed.

(** A loop whose rounds all return under an invariant they keep returns. *)
Lemma for_each_returns {A : Type} (I : gmap string file → Prop) l (body : A → M ()) :
  (∀ x fs, x ∈ l → I fs → outcome (body x fs) = inr () ∧ I (files (body x fs))) →
  ∀ fs, I fs →
    outcome (for_each l body fs) = inr () ∧ I (files (for_each l body fs)).
Proof.
  induction l as [|x l IH]; intros Hstep fs HI; [done|].
  rewrite for_each_cons.
  destruct (Hstep x fs) as [Ho HI']; [by left | done |]. rewrite Ho. cbn.
  apply IH; [|done]. intros y fs' Hy. apply Hstep. by right.
Qed.

Lemma batch_sound_merge_pair pos_list word pos fs :
  pos ∈ pos_list → batch_sound pos_list fs →
  outcome (merge_pair word pos fs) = inr () ∧
  batch_sound pos_list (files (merge_pair word pos fs)).
Proof.
  intros Hin Hfs. destruct (file_map !! pos) as [path|] eqn:Hp.
  - destruct (batch_sound_loaded pos_list fs pos path Hfs Hin Hp) as [Hu Hs].
    destruct (merge_pair_sound word pos path fs Hp Hu Hs) as (d' & _ & Hs' & ->).
    split; [done|]. cbn [files]. intros pos' path' Hin' Hp'.
    destruct (decide (path = path')) as [<-|Hne].
    + right. exists d'. by rewrite lookup_insert_eq.
    + rewrite lookup_insert_ne by done. by eapply Hfs.
  - by rewrite merge_pair_skip.
Qed.

Lemma batch_sound_merge word_list pos_list fs :
  batch_sound pos_list fs →
  outcome (merge word_list pos_list fs) = inr () ∧
  batch_sound pos_list (files (merge word_list pos_list fs)).
Proof.
  unfold merge. revert fs. apply for_each_returns. intros word fs _.
  revert fs. apply for_each_returns. intros pos fs Hin.
  by apply batch_sound_merge_pair.
Qed.

Lemma stores_sound_merge word_list pos_list fs :
  stores_sound fs →
  outcome (merge word_list pos_list fs) = inr () ∧
  stores_sound (files (merge word_list pos_list fs)).
Proof.
  unfold merge. revert fs. apply for_each_returns. intros word fs _.
  revert fs. apply for_each_returns. intros pos fs _.
  apply stores_sound_merge_pair.
Qed.

End with_schema.

(** ** Words that no store lists *)

Section long_words.

Lemma letters_length n : String.length (letters n) = n.
Proof. induction n as [|n IH]; simpl; by rewrite ?IH. Qed.

Lemma letters_all_az n : Str.all_az (letters n) = true.
Proof. induction n as [|n IH]; [done|]. simpl. by rewrite IH. Qed.

Lemma letters_is_word n : Str.is_word (letters (S n)) = true.
Proof.
  unfold Str.is_word. rewrite letters_all_az. by rewrite andb_true_r.
Qed.

Lemma occurs_length w s : Py.occurs w s = true → length w ≤ length s.
Proof.
  induction s as [|d s IH]; cbn [Py.occurs].
  - rewrite orb_false_r. intros H%bool_decide_eq_true. by apply prefix_length.
  - intros [H%bool_decide_eq_true|H%IH]%orb_true_iff; [by apply prefix_length|].
    simpl. lia.
Qed.

Lemma contains_beyond_reach w x :
  reach x < String.length w → Py.contains w x ≠ inr true.
Proof.
  rewrite <-points_length.
  intros Hlt. destruct x as [| | |s|items|kvs]; try done; simpl in *; intros [= H].
  - apply occurs_length in H. lia.
  - apply existsb_exists in H as (i & Hi%list_elem_of_In & He).
    destruct i; try done. apply bool_decide_eq_true in He as ->.
    assert (length (Str.points w)
            ∈ (λ i, match i with JStr s => length s | _ => 0 end) <$> items) as Hin.
    { apply list_elem_of_fmap. by exists (JStr (Str.points w)). }
    apply max_list_elem_of_le in Hin. lia.
  - apply existsb_exists in H as ([k v] & Hi%list_elem_of_In & He).
    apply bool_decide_eq_true in He. simpl in He. subst k.
    assert (length (Str.points w)
            ∈ (λ kv : list N * json, length kv.1) <$> kvs) as Hin.
    { apply list_elem_of_fmap. by exists (Str.points w, v). }
    apply max_list_elem_of_le in Hin. lia.
Qed.

Lemma long_word_is_word d : Str.is_word (long_word d) = true.
Proof. apply letters_is_word. Qed.

Lemma long_word_not_found d k x :
  k ∈ required → Py.getitem d k = inr x → Py.contains (long_word d) x ≠ inr true.
Proof.
  intros Hk Hg. apply contains_beyond_reach.
  unfold long_word. rewrite letters_length.
  assert (reach x = reach_at d k) as -> by (unfold reach_at; by rewrite Hg).
  unfold required in Hk.
  repeat (apply elem_of_cons in Hk as [->|Hk]; [lia|]). by apply elem_of_nil in Hk.
Qed.

(** The long word is new in every record on which the condition of
    line 83 raises nothing. *)
Lemma long_word_new d b : is_new (long_word d) d = inr b → b = true.
Proof.
  destruct b; [done|]. intros (p & Hp & Hf)%is_new_false. exfalso.
  destruct Hf as [Hf|[_ (s & Hs & Hf)]].
  { eapply long_word_not_found; [|exact Hp|exact Hf]. set_solver. }
  destruct Hf as [Hf|[_ (u & Hu & Hf)]].
  { eapply long_word_not_found; [|exact Hs|exact Hf]. set_solver. }
  eapply long_word_not_found; [|exact Hu|exact Hf]. set_solver.
Qed.

(** A record on which the cycle returns for every word has the three
    members, and a list under [pending]. *)
Lemma add_word_total_inv d :
  (∀ word, Str.is_word word = true → ∃ d', add_word word d = inr d') →
  ∃ items s u,
    Py.getitem d "pending" = inr (JArr items) ∧
    Py.getitem d "safe" = inr s ∧ Py.getitem d "unsafe" = inr u.
Proof.
  intros Hall. destruct (Hall (long_word d) (long_word_is_word d)) as [d' Ha].
  apply add_word_inr in Ha as [[Hn _]|(items & Hn & Hp & _)].
  { by apply long_word_new in Hn. }
  apply is_new_true in Hn as (p & s & u & _ & _ & Hs & _ & Hu & _).
  by exists items, s, u.
Qed.

End long_words.
(** ** The order of the pending list *)

Section order.

Lemma targets_cons pos pos_list :
  targets (pos :: pos_list)
  = match file_map !! pos with
    | Some path => path :: targets pos_list
    | None => targets pos_list
    end.
Proof. reflexivity. Qed.

Lemma elem_of_targets path pos_list :
  path ∈ targets pos_list ↔ ∃ pos, pos ∈ pos_list ∧ file_map !! pos = Some path.
Proof. unfold targets. by rewrite list_elem_of_omap. Qed.

Lemma file_map_inj pos pos' path :
  file_map !! pos = Some path → file_map !! pos' = Some path → pos = pos'.
Proof.
  intros H%file_map_cases H'%file_map_cases.
  repeat (apply elem_of_cons in H as [[= -> ->]|H]);
    try (by apply elem_of_nil in H);
    repeat (apply elem_of_cons in H' as [[= ->]|H']);
    try done; by apply elem_of_nil in H'.
Qed.

Lemma elem_of_targets_pos pos path pos_list :
  file_map !! pos = Some path → path ∈ targets pos_list ↔ pos ∈ pos_list.
Proof.
  intros Hp. rewrite elem_of_targets. split.
  - intros (pos' & Hin & Hp'). by rewrite (file_map_inj pos pos' path).
  - intros Hin. by exists pos.
Qed.

Lemma merge_cons word word_list pos_list fs :
  merge (word :: word_list) pos_list fs =
  let r := for_each pos_list (merge_pair word) fs in
  match outcome r with
  | inl e => Result (inl e) (files r) (trace r)
  | inr _ =>
      let r' := merge word_list pos_list (files r) in
      Result (outcome r') (files r') (trace r ++ trace r')
  end.
Proof. reflexivity. Qed.

(** A store that no tag of the list stands for is left alone. *)
Lemma merge_untouched word_list pos_list fs path :
  path ∉ targets pos_list → files (merge word_list pos_list fs) !! path = fs !! path.
Proof.
  intros Hno.
  apply (merge_files_ind (λ fs', fs' !! path = fs !! path)); [|done].
  intros word pos fs' _ Hpos <-.
  destruct (merge_pair_files word pos fs')
    as [->|[(Q & items & HQ & _ & _ & _ & _ & _ & ->)|(Q & d & HQ & _ & _ & _ & ->)]];
    [done|..];
    (apply lookup_insert_ne; intros ->; apply Hno, elem_of_targets; by exists pos).
Qed.

(** One round of the outer loop, when it returns: a store that a tag of
    the list stands for went through the cycle, the others were left. *)
Lemma inner_loop word pos_list path :
  ∀ fs, outcome (for_each pos_list (merge_pair word) fs) = inr () →
    (path ∉ targets pos_list →
       files (for_each pos_list (merge_pair word) fs) !! path = fs !! path) ∧
    (path ∈ targets pos_list →
       ∃ d1, add_word word (content (fs !! path)) = inr d1 ∧
         files (for_each pos_list (merge_pair word) fs) !! path = Some (Document d1)).
Proof.
  induction pos_list as [|pos pl IH]; intros fs Hok.
  { split; [done|]. by intros ?%elem_of_nil. }
  rewrite for_each_cons in Hok |- *.
  destruct (outcome (merge_pair word pos fs)) as [e|[]] eqn:Ho; [done|].
  cbn [outcome files trace] in Hok |- *.
  set (fs1 := files (merge_pair word pos fs)) in *.
  destruct (IH fs1 Hok) as [IHout IHin].
  pose proof (merge_pair_ok word pos fs Ho) as Hstep. fold fs1 in Hstep.
  rewrite targets_cons.
  destruct (file_map !! pos) as [Q|] eqn:HQ.
  - destruct Hstep as (dQ & HaQ & _ & _ & HfQ).
    destruct (decide (Q = path)) as [->|Hne].
    + split; [intros Hn; exfalso; apply Hn; left|]. intros _.
      exists dQ. split; [done|].
      assert (fs1 !! path = Some (Document dQ)) as Hl by (rewrite HfQ; apply lookup_insert_eq).
      destruct (decide (path ∈ targets pl)) as [Hin|Hnin].
      * destruct (IHin Hin) as (d1 & Ha1 & ->). rewrite Hl in Ha1. cbn [content] in Ha1.
        rewrite add_word_old in Ha1 by (by eapply add_word_settles). congruence.
      * by rewrite IHout.
    + assert (fs1 !! path = fs !! path) as Hl by (rewrite HfQ; by apply lookup_insert_ne).
      rewrite <-Hl. split.
      * intros Hn. apply IHout. intros Hin. apply Hn. by right.
      * intros [?|Hin]%elem_of_cons; [done|]. by apply IHin.
  - rewrite <-Hstep. by split.
Qed.

Lemma filter_filter_implied {X : Type} (f g : X → bool) (l : list X) :
  (∀ x, f x = true → g x = true) →
  List.filter f (List.filter g l) = List.filter f l.
Proof.
  intros Himp. induction l as [|x l IH]; [done|]. simpl.
  destruct (g x) eqn:Hg; simpl.
  - by rewrite IH.
  - destruct (f x) eqn:Hf; [|done]. apply Himp in Hf. congruence.
Qed.

Lemma filter_filter_and {X : Type} (f g : X → bool) (l : list X) :
  List.filter f (List.filter g l) = List.filter (λ x, g x && f x) l.
Proof.
  induction l as [|x l IH]; [done|]. simpl.
  destruct (g x); simpl; [|done]. destruct (f x); by rewrite IH.
Qed.

(** Whether the membership test raises depends on the value, not on the word. *)
Lemma contains_total w w' x b :
  Py.contains w x = inr b → ∃ b', Py.contains w' x = inr b'.
Proof. destruct x; try done; simpl; eauto. Qed.

(** After a word was added, the new words are the ones that were new
    before and differ from it. *)
Lemma fresh_appended w d items x :
  is_new w d = inr true →
  Py.getitem d "pending" = inr (JArr items) →
  fresh x (Py.mutated d "pending" (JArr (items ++ [JStr (Str.points w)])))
  = negb (bool_decide (x = w)) && fresh x d.
Proof.
  intros (p & s & u & Hp & _ & Hs & Hcs & Hu & Hcu)%is_new_true Hi.
  destruct (contains_total w x s _ Hcs) as [bs Hxs].
  destruct (contains_total w x u _ Hcu) as [bu Hxu].
  unfold fresh, is_new, mbind, E_bind, mret, E_ret.
  erewrite getitem_mutated_eq by done.
  rewrite !getitem_mutated_ne by done.
  rewrite Hi, Hs, Hu, !contains_array, Hxs, Hxu, strings_app.
  cbn [strings omap list_omap].
  repeat case_bool_decide; destruct bs, bu; try done; exfalso;
    repeat match goal with
           | H : context [_ ∈ _ ++ _] |- _ => rewrite elem_of_app in H
           | H : context [_ ∈ [_]] |- _ =>
               rewrite list_elem_of_singleton, points_eq in H
           end; tauto.
Qed.

(** When the merge loop returns, a store that a tag of the batch stands
    for has got, after what its pending list held, the new words of the
    batch in the order of their first occurrence. *)
Lemma merge_pending pos_list path word_list :
  path ∈ targets pos_list →
  ∀ fs, outcome (merge word_list pos_list fs) = inr () →
    pending (files (merge word_list pos_list fs) !! path)
    = pending (fs !! path)
      ++ (Str.points <$>
          List.filter (λ w, fresh w (content (fs !! path))) (first_occurrences word_list)).
Proof.
  intros Hin. unfold pending.
  induction word_list as [|w wl IH]; intros fs Hok.
  { cbn. by rewrite app_nil_r. }
  rewrite merge_cons in Hok. rewrite merge_cons. cbn zeta in Hok |- *.
  destruct (outcome (for_each pos_list (merge_pair w) fs)) as [e|[]] eqn:Ho; [done|].
  cbn [outcome files] in Hok |- *.
  destruct (inner_loop w pos_list path fs Ho) as [_ Hstep].
  destruct (Hstep Hin) as (d1 & Ha & Hl). clear Hstep.
  rewrite (IH _ Hok), Hl. cbn [content first_occurrences List.filter].
  apply add_word_inr in Ha as [[Hn ->]|(items & Hn & Hp & ->)].
  - unfold fresh at 2. rewrite Hn. do 2 f_equal. symmetry.
    apply filter_filter_implied. intros x Hx.
    apply negb_true_iff, bool_decide_eq_false. intros ->.
    unfold fresh in Hx. by rewrite Hn in Hx.
  - unfold fresh at 2. rewrite Hn.
    erewrite words_mutated_pending by done.
    rewrite strings_app, (words_pending_array _ _ Hp), <-app_assoc.
    cbn [strings omap list_omap app]. rewrite fmap_cons. do 3 f_equal.
    rewrite filter_filter_and. apply List.filter_ext. intros x.
    by apply fresh_appended.
Qed.

Lemma fresh_schema word d : schema d = true → fresh word d = negb (listed word d).
Proof. intros Hs. unfold fresh. rewrite is_new_schema by done. by destruct (listed word d). Qed.

End order.

(** ** Running a loop again *)

Section rerun.

Context {A : Type} (body : A → M ()) (Done : A → gmap string file → Prop).

Hypothesis Done_run : ∀ x fs,
  Done x fs → outcome (body x fs) = inr () ∧ files (body x fs) = fs.
Hypothesis Done_after : ∀ x fs,
  outcome (body x fs) = inr () → Done x (files (body x fs)).
Hypothesis Done_keep : ∀ x y fs, Done x fs → Done x (files (body y fs)).
Hypothesis fail_again : ∀ x fs,
  outcome (body x fs) ≠ inr () →
  outcome (body x (files (body x fs))) ≠ inr () ∧
  files (body x (files (body x fs))) = files (body x fs).

Lemma for_each_keeps l x fs : Done x fs → Done x (files (for_each l body fs)).
Proof.
  apply (for_each_files_ind (Done x)). intros y fs' _. apply Done_keep.
Qed.

Lemma for_each_settles l :
  ∀ fs, outcome (for_each l body fs) = inr () →
    ∀ x, x ∈ l → Done x (files (for_each l body fs)).
Proof.
  induction l as [|y l IH]; intros fs Hok x Hx; [by apply elem_of_nil in Hx|].
  rewrite for_each_cons in Hok |- *.
  destruct (outcome (body y fs)) as [e|[]] eqn:Ho; [done|].
  cbn [outcome files] in Hok |- *.
  apply elem_of_cons in Hx as [->|Hx].
  - apply for_each_keeps, Done_after, Ho.
  - by apply IH.
Qed.

Lemma for_each_settled l fs :
  (∀ x, x ∈ l → Done x fs) →
  outcome (for_each l body fs) = inr () ∧ files (for_each l body fs) = fs.
Proof.
  induction l as [|y l IH]; intros Hall; [done|].
  rewrite for_each_cons.
  destruct (Done_run y fs) as [Ho Hf]; [apply Hall; left|].
  rewrite Ho, Hf. cbn [outcome files]. apply IH. intros x Hx. apply Hall. by right.
Qed.

(** Run again on the files it left, the loop ends the same way and
    leaves the files as they are. *)
Lemma for_each_rerun l :
  ∀ fs,
    files (for_each l body (files (for_each l body fs))) = files (for_each l body fs) ∧
    (outcome (for_each l body (files (for_each l body fs))) = inr ()
     ↔ outcome (for_each l body fs) = inr ()).
Proof.
  induction l as [|y l IH]; intros fs; [done|].
  rewrite (for_each_cons y l body fs).
  destruct (outcome (body y fs)) as [e|[]] eqn:Ho.
  - cbn [outcome files]. rewrite for_each_cons.
    destruct (fail_again y fs) as [Hagain Hsame]; [by rewrite Ho|].
    destruct (outcome (body y (files (body y fs)))) as [e'|[]]; [|done].
    cbn [outcome files]. done.
  - cbn [outcome files]. set (fs1 := files (body y fs)).
    set (fs2 := files (for_each l body fs1)).
    assert (Done y fs2) as Hy.
    { apply for_each_keeps, Done_after, Ho. }
    destruct (Done_run y fs2 Hy) as [Ho2 Hf2].
    rewrite for_each_cons, Ho2, Hf2. cbn [outcome files]. apply IH.
Qed.

End rerun.

(** ** Running the script again *)

Section idempotence.

Lemma settled_iff word pos fs :
  settled word pos fs ↔
  file_map !! pos = None ∨
  ∃ path d, file_map !! pos = Some path ∧ fs !! path = Some (Document d) ∧
    is_new word d = inr false ∧ Py.encodable d = true.
Proof.
  unfold settled. destruct (file_map !! pos) as [path|] eqn:Hp.
  - rewrite (merge_pair_run _ _ path) by done. cbn zeta. split.
    + intros [Ho Hf]. right. exists path.
      destruct (fs !! path) as [[|d]|] eqn:Hl; cbn [content] in *; [done|..].
      * destruct (add_word word d) as [e|d'] eqn:Ha; [done|].
        destruct (Py.encodable d') eqn:He; [|done]. cbn [files] in Hf.
        assert (d' = d) as ->.
        { apply (f_equal (λ m, m !! path)) in Hf.
          rewrite lookup_insert_eq, Hl in Hf. congruence. }
        exists d. split; [done|]. split; [done|]. split; [|done].
        by eapply add_word_settles.
      * destruct (add_word word empty_record) as [e|d'] eqn:Ha; [done|].
        destruct (Py.encodable d') eqn:He; [|done]. cbn [files] in Hf.
        apply (f_equal (λ m, m !! path)) in Hf.
        rewrite lookup_insert_eq, Hl in Hf. done.
    + intros [?|(path' & d & [= <-] & Hl & Hn & He)]; [done|].
      rewrite Hl. cbn [content]. rewrite add_word_old, He by done.
      split; [done|]. cbn [files]. by apply insert_id.
  - rewrite merge_pair_skip by done. split; [by left | done].
Qed.

Lemma settled_after word pos fs :
  outcome (merge_pair word pos fs) = inr () →
  settled word pos (files (merge_pair word pos fs)).
Proof.
  intros Hok. apply settled_iff.
  pose proof (merge_pair_ok word pos fs Hok) as Hstep.
  destruct (file_map !! pos) as [path|]; [|by left].
  destruct Hstep as (d' & Ha & _ & He & ->). right. exists path, d'.
  split; [done|]. split; [apply lookup_insert_eq|]. split; [|done].
  by eapply add_word_settles.
Qed.

Lemma settled_keep word pos word' pos' fs :
  settled word pos fs → settled word pos (files (merge_pair word' pos' fs)).
Proof.
  intros Hs.
  destruct (merge_pair_files word' pos' fs)
    as [->|[(P & items & HP & _ & _ & Hn & Hi & He & ->)|(P & d' & HP & _ & Hl' & He' & ->)]];
    [done|..];
    (apply settled_iff in Hs as [Hs|(path & d & Hp & Hl & Hf & He0)];
     apply settled_iff; [by left|]);
    right; exists path; (destruct (decide (P = path)) as [->|Hne];
                         [|exists d; by rewrite lookup_insert_ne]).
  - rewrite lookup_insert_eq. eexists. split; [done|]. split; [done|].
    rewrite Hl in *. cbn [content] in *. split.
    + eapply is_new_false_mono; [exact Hf|].
      pose proof (add_word_new _ _ Hn) as Ha. by rewrite Hi in Ha.
    + erewrite encodable_mutated; [done..|apply encodable_append].
  - congruence.
Qed.

(** A work item that raised raises again on the files it left, and
    leaves them: the store it could not read or use is as it was, and the
    store it could not write no longer parses. *)
Lemma merge_pair_fail_again word pos fs :
  outcome (merge_pair word pos fs) ≠ inr () →
  outcome (merge_pair word pos (files (merge_pair word pos fs))) ≠ inr () ∧
  files (merge_pair word pos (files (merge_pair word pos fs)))
  = files (merge_pair word pos fs).
Proof.
  intros Hno.
  destruct (merge_pair_files word pos fs)
    as [Hf|[(P & items & _ & Hok & _)|(P & d & HP & _ & _ & _ & Hf)]]; [|done|].
  - by rewrite !Hf.
  - rewrite Hf. rewrite (merge_pair_run _ _ P) by done. cbn zeta.
    by rewrite lookup_insert_eq.
Qed.

(** The inner loop of one word, run again. *)
Lemma inner_rerun word pos_list fs :
  let r := for_each pos_list (merge_pair word) fs in
  files (for_each pos_list (merge_pair word) (files r)) = files r ∧
  (outcome (for_each pos_list (merge_pair word) (files r)) = inr ()
   ↔ outcome r = inr ()).
Proof.
  apply (for_each_rerun (merge_pair word) (settled word)).
  - by intros pos fs' [? ?].
  - intros pos fs'. apply settled_after.
  - intros pos pos' fs'. apply settled_keep.
  - intros pos fs' Hno. by apply merge_pair_fail_again.
Qed.

(** The merge loop, run again on the files it left, leaves them. *)
Lemma merge_rerun word_list pos_list fs :
  let r := merge word_list pos_list fs in
  files (merge word_list pos_list (files r)) = files r.
Proof.
  unfold merge.
  apply (for_each_rerun (λ word, for_each pos_list (λ pos, merge_pair word pos))
           (λ word fs', ∀ pos, pos ∈ pos_list → settled word pos fs')).
  - intros word fs' Hall.
    apply (for_each_settled (merge_pair word) (settled word)); [by intros ? ? [? ?]|done].
  - intros word fs' Hok.
    apply (for_each_settles (merge_pair word) (settled word)
             (λ pos fs'', settled_after word pos fs'')
             (λ pos pos' fs'', settled_keep word pos word pos' fs'')), Hok.
  - intros word word' fs' Hall pos Hpos.
    apply (for_each_files_ind (settled word pos)); [|by apply Hall].
    intros pos' fs'' _. apply settled_keep.
  - intros word fs' Hno.
    destruct (inner_rerun word pos_list fs') as [Hf Ho]. split; [|done].
    intros Hok. by apply Hno, Ho.
Qed.

End idempotence.

(** C4.  A second run of the same batch on the files the first run left
    changes no file: the final state is that of the first run. *)
Theorem second_run_changes_nothing WORDS POS ISSUE fs :
  files (main WORDS POS ISSUE (files (main WORDS POS ISSUE fs)))
  = files (main WORDS POS ISSUE fs).
Proof.
  destruct (main_cases WORDS POS) as [H|[(?&?&?)|(?&?&?)]].
  - by rewrite !main_no_input.
  - by rewrite !main_invalid, !rejection_files.
  - rewrite !main_merge by done. cbn [files]. apply merge_rerun.
Qed.
(** ** What a merge loop that returns has done *)

Section merged.

Lemma merge_settles word_list pos_list fs :
  outcome (merge word_list pos_list fs) = inr () →
  ∀ word pos, word ∈ word_list → pos ∈ pos_list →
    settled word pos (files (merge word_list pos_list fs)).
Proof.
  intros Hok word pos Hw Hp. unfold merge in *.
  refine (for_each_settles
            (λ word, for_each pos_list (λ pos, merge_pair word pos))
            (λ word fs', ∀ pos, pos ∈ pos_list → settled word pos fs')
            _ _ word_list fs Hok word Hw pos Hp).
  - intros w fs' Hok'.
    apply (for_each_settles (merge_pair w) (settled w)
             (λ pos fs'', settled_after w pos fs'')
             (λ pos pos' fs'', settled_keep w pos w pos' fs'')), Hok'.
  - intros w w' fs' Hall p Hpin.
    apply (for_each_files_ind (settled w p)); [|by apply Hall].
    intros pos' fs'' _. apply settled_keep.
Qed.

Lemma saves_app a b : saves (a ++ b) = saves a + saves b.
Proof. unfold saves. by rewrite List.filter_app, length_app. Qed.

Lemma loads_app a b : loads (a ++ b) = loads a + loads b.
Proof. unfold loads. by rewrite List.filter_app, length_app. Qed.

(** The rounds of a loop that returns add up. *)
Lemma for_each_count {A : Type} (count : list event → nat) (weight : A → nat)
    (body : A → M ()) l :
  count [] = 0 →
  (∀ a b, count (a ++ b) = count a + count b) →
  (∀ x fs, x ∈ l → outcome (body x fs) = inr () → count (trace (body x fs)) = weight x) →
  ∀ fs, outcome (for_each l body fs) = inr () →
    count (trace (for_each l body fs)) = sum_list (weight <$> l).
Proof.
  intros Hnil Happ. induction l as [|x l IH]; intros Hstep fs Hok; [done|].
  rewrite for_each_cons in Hok |- *.
  destruct (outcome (body x fs)) as [e|[]] eqn:Ho; [done|].
  cbn [outcome trace] in Hok |- *.
  rewrite Happ, fmap_cons. cbn [sum_list]. f_equal.
  - apply Hstep; [left | done].
  - apply IH; [|done]. intros y fs' Hy. apply Hstep. by right.
Qed.

Lemma sum_list_targets pos_list :
  sum_list ((λ pos, match file_map !! pos with Some _ => 1 | None => 0 end) <$> pos_list)
  = length (targets pos_list).
Proof.
  induction pos_list as [|pos pl IH]; [done|].
  rewrite fmap_cons, targets_cons. cbn [sum_list]. rewrite IH.
  destruct (file_map !! pos); cbn [length]; unfold id; lia.
Qed.

Lemma sum_list_const {X : Type} (n : nat) (l : list X) :
  sum_list ((λ _, n) <$> l) = length l * n.
Proof. induction l as [|x l IH]; [done|]. rewrite fmap_cons. cbn. by rewrite IH. Qed.

Lemma merge_pair_counts word pos fs :
  outcome (merge_pair word pos fs) = inr () →
  saves (trace (merge_pair word pos fs)) = match file_map !! pos with Some _ => 1 | None => 0 end ∧
  loads (trace (merge_pair word pos fs)) = match file_map !! pos with Some _ => 1 | None => 0 end.
Proof.
  destruct (file_map !! pos) as [path|] eqn:Hp; [|by rewrite merge_pair_skip].
  rewrite (merge_pair_run _ _ path) by done. cbn zeta.
  destruct (fs !! path) as [[|d]|]; [done|..]; cbn [content];
    (destruct (add_word word _) as [e|d']; [done|]);
    (destruct (Py.encodable d'); [|done]); by cbn.
Qed.

Lemma merge_counts word_list pos_list fs :
  outcome (merge word_list pos_list fs) = inr () →
  saves (trace (merge word_list pos_list fs)) = length word_list * length (targets pos_list) ∧
  loads (trace (merge word_list pos_list fs)) = length word_list * length (targets pos_list).
Proof.
  intros Hok. unfold merge in *. split.
  - rewrite (for_each_count saves (λ _, length (targets pos_list)));
      [apply sum_list_const | done | apply saves_app | | done].
    intros word fs' _ Hok'.
    rewrite (for_each_count saves (λ pos, match file_map !! pos with Some _ => 1 | None => 0 end));
      [apply sum_list_targets | done | apply saves_app | | done].
    intros pos fs'' _ Hok''. by apply merge_pair_counts.
  - rewrite (for_each_count loads (λ _, length (targets pos_list)));
      [apply sum_list_const | done | apply loads_app | | done].
    intros word fs' _ Hok'.
    rewrite (for_each_count loads (λ pos, match file_map !! pos with Some _ => 1 | None => 0 end));
      [apply sum_list_targets | done | apply loads_app | | done].
    intros pos fs'' _ Hok''. by apply merge_pair_counts.
Qed.

Lemma grown_merge_ok word_list pos_list fs path :
  outcome (merge word_list pos_list fs) = inr () →
  grown word_list (fs !! path) (files (merge word_list pos_list fs) !! path).
Proof.
  intros Hok.
  apply (merge_ok_ind (λ fs', grown word_list (fs !! path) (fs' !! path)));
    [|done|apply grown_refl].
  intros word pos fs' Hw _ Hok' Hg. by apply grown_merge_pair_ok.
Qed.

Lemma result_eta {A : Type} (r : result A) : Result (outcome r) (files r) (trace r) = r.
Proof. by destruct r. Qed.

Lemma for_each_app {A : Type} (l1 l2 : list A) (body : A → M ()) fs :
  for_each (l1 ++ l2) body fs = (for_each l1 body;; for_each l2 body) fs.
Proof.
  revert fs. induction l1 as [|x l1 IH]; intros fs.
  - rewrite bind_run. cbn. by rewrite result_eta.
  - cbn [app]. rewrite bind_run, !for_each_cons.
    destruct (outcome (body x fs)) as [e|[]] eqn:Ho; cbn [outcome files trace]; [done|].
    rewrite IH, bind_run.
    destruct (outcome (for_each l1 body (files (body x fs)))) as [e|[]];
      cbn [outcome files trace]; [done|]. by rewrite app_assoc.
Qed.

Lemma for_each_map {A B : Type} (f : A → B) (l : list A) (body : B → M ()) fs :
  for_each (map f l) body fs = for_each l (λ x, body (f x)) fs.
Proof.
  revert fs. induction l as [|x l IH]; intros fs; [done|].
  cbn [map]. rewrite !for_each_cons.
  destruct (outcome (body (f x) fs)) as [e|[]]; [done|]. cbn zeta. by rewrite IH.
Qed.

(** The two loops are one loop over the pairs. *)
Lemma merge_pairs word_list pos_list fs :
  merge word_list pos_list fs
  = for_each (pairs word_list pos_list) (λ wp, merge_pair wp.1 wp.2) fs.
Proof.
  unfold merge, pairs. revert fs.
  induction word_list as [|word wl IH]; intros fs; [done|].
  cbn [flat_map]. rewrite for_each_app, bind_run, for_each_cons, for_each_map.
  cbn [fst snd].
  destruct (outcome (for_each pos_list (λ pos, merge_pair word pos) fs)) as [e|[]];
    [done|]. cbn zeta. by rewrite IH.
Qed.

End merged.
(** ** The merge engine *)

Lemma loaded_content fs path d :
  loaded fs path d → fs !! path ≠ Some Unparsable ∧ content (fs !! path) = d.
Proof. by intros [[-> ->]| ->]. Qed.

Lemma listed_after word d :
  schema d = true → is_new word d = inr false → listed word d = true.
Proof.
  intros Hs Hn. rewrite is_new_schema in Hn by done.
  injection Hn as Hn. by apply negb_false_iff in Hn.
Qed.

(** C2, as amended.  The two loops run the cycle once for every pair of
    a word and a tag of the batch, in their order.  For a word and a
    recognised tag whose store has no file or holds a record that matches
    the schema and has no lone surrogate, the cycle loads the store (the
    empty record when it has no file), adds the word at the end of
    [pending] exactly when it is in none of the three lists, and writes
    the store back.  When the stores of all the tags of the batch are
    such, the merge loop returns after one load and one save for every
    pair of a word and a recognised tag, and the store of every
    recognised tag of the batch then lists every word of the batch: its
    pending list is what it was, followed by the words that were in none
    of its lists, once each.  With the words
    [Cat], [cat], [dog] on three lines and the tag [noun], the pending
    list of the noun store gets [cat] and [dog], once each, as far as the
    store did not list them. *)
Theorem merge_cycle :
  (∀ word_list pos_list fs,
     merge word_list pos_list fs
     = for_each (pairs word_list pos_list) (λ wp, merge_pair wp.1 wp.2) fs) ∧
  (∀ word pos path fs d,
     file_map !! pos = Some path → loaded fs path d → sound d →
     ∃ d',
       merge_pair word pos fs
       = Result (inr ()) (<[path := Document d']> fs)
           (EvExists path :: match fs !! path with
                             | Some _ => [EvRead path]
                             | None => []
                             end ++ [EvWrite path d']) ∧
       sound d' ∧
       words "pending" d'
       = words "pending" d ++ (if listed word d then [] else [Str.points word]) ∧
       words "safe" d' = words "safe" d ∧
       words "unsafe" d' = words "unsafe" d ∧
       (listed word d = true → d' = d)) ∧
  (∀ word_list pos_list fs,
     batch_sound pos_list fs →
     let r := merge word_list pos_list fs in
     outcome r = inr () ∧ batch_sound pos_list (files r) ∧
     saves (trace r) = length word_list * length (targets pos_list) ∧
     loads (trace r) = length word_list * length (targets pos_list) ∧
     ∀ pos path, pos ∈ pos_list → file_map !! pos = Some path →
       let d0 := content (fs !! path) in
       let d := content (files r !! path) in
       words "pending" d
       = words "pending" d0
         ++ (Str.points <$> List.filter (λ w, negb (listed w d0))
                              (first_occurrences word_list)) ∧
       words "safe" d = words "safe" d0 ∧
       words "unsafe" d = words "unsafe" d0 ∧
       ∀ word, word ∈ word_list →
         files r !! path = Some (Document d) ∧ listed word d = true) ∧
  (∀ ISSUE fs d,
     loaded fs "Sources/PhraseKit/Resources/_noun.json" d → sound d →
     let r := main ("Cat" +:+ nl +:+ "cat" +:+ nl +:+ "dog") "noun" ISSUE fs in
     let f := files r !! "Sources/PhraseKit/Resources/_noun.json" in
     outcome r = inr () ∧
     pending f
     = words "pending" d
       ++ (Str.points <$> List.filter (λ w, negb (listed w d)) ["cat"; "dog"]) ∧
     safe f = words "safe" d ∧ unsafe f = words "unsafe" d ∧
     (listed "cat" d = false → listed "dog" d = false →
      pending f = words "pending" d ++ [Str.points "cat"; Str.points "dog"])).
Proof.
  assert (∀ word_list pos_list fs,
     batch_sound pos_list fs →
     let r := merge word_list pos_list fs in
     outcome r = inr () ∧ batch_sound pos_list (files r) ∧
     saves (trace r) = length word_list * length (targets pos_list) ∧
     loads (trace r) = length word_list * length (targets pos_list) ∧
     ∀ pos path, pos ∈ pos_list → file_map !! pos = Some path →
       let d0 := content (fs !! path) in
       let d := content (files r !! path) in
       words "pending" d
       = words "pending" d0
         ++ (Str.points <$> List.filter (λ w, negb (listed w d0))
                              (first_occurrences word_list)) ∧
       words "safe" d = words "safe" d0 ∧
       words "unsafe" d = words "unsafe" d0 ∧
       ∀ word, word ∈ word_list →
         files r !! path = Some (Document d) ∧ listed word d = true) as Hbatch.
  { intros word_list pos_list fs Hfs r. subst r.
    destruct (batch_sound_merge word_list pos_list fs Hfs) as [Hok Hfs'].
    destruct (merge_counts _ _ fs Hok) as [Hsaves Hloads].
    split; [done|]. split; [done|]. split; [done|]. split; [done|].
    intros pos path Hpos Hfm d0 d. subst d0 d.
    destruct (batch_sound_loaded pos_list fs pos path Hfs Hpos Hfm) as [Hnu [Hsc He]].
    destruct (grown_merge_ok word_list pos_list fs path Hok) as (Hsafe & Hunsafe & _).
    split; [|split; [done|split; [done|]]].
    - assert (path ∈ targets pos_list) as Hin by (by apply (elem_of_targets_pos pos)).
      pose proof (merge_pending pos_list path word_list Hin fs Hok) as Hp.
      unfold pending in Hp. rewrite Hp. do 2 f_equal.
      apply List.filter_ext. intros w. by apply fresh_schema.
    - intros word Hw.
      pose proof (merge_settles _ _ fs Hok word pos Hw Hpos) as Hs.
      apply settled_iff in Hs as [Hs|(path' & d & Hfm' & Hl & Hn & _)]; [congruence|].
      assert (path' = path) as -> by congruence.
      rewrite Hl. cbn [content]. split; [done|].
      apply listed_after; [|done].
      destruct (Hfs' pos path Hpos Hfm) as [Hnone|(d' & Hd' & Hsc' & _)]; congruence. }
  split; [apply merge_pairs|]. split; [|split; [exact Hbatch|]].
  - intros word pos path fs d Hp [Hu Hc]%loaded_content Hs. rewrite <-Hc in *.
    destruct (add_word_schema word _ (proj1 Hs)) as (d' & Ha & Hs' & Hpe & Hsa & Hun & Hsame).
    destruct (merge_pair_sound word pos path fs Hp Hu Hs) as (d'' & Ha' & Hsound & Hrun).
    assert (d'' = d') as -> by congruence. by exists d'.
  - intros ISSUE fs d [Hu Hc]%loaded_content Hs r f. subst r f.
    set (path := "Sources/PhraseKit/Resources/_noun.json") in *.
    assert (normalize ("Cat" +:+ nl +:+ "cat" +:+ nl +:+ "dog") = ["cat"; "cat"; "dog"]) as Hw
      by reflexivity.
    assert (normalize "noun" = ["noun"]) as Hpl by reflexivity.
    assert (file_map !! "noun" = Some path) as Hfm by reflexivity.
    rewrite main_merge by (by rewrite ?Hw, ?Hpl). rewrite Hw, Hpl. cbn [outcome files].
    assert (outcome (merge ["cat"; "cat"; "dog"] ["noun"] fs) = inr ()) as Hok.
    { unfold merge.
      set (I := λ fs' : gmap string file,
             fs' !! path ≠ Some Unparsable ∧ sound (content (fs' !! path))).
      refine (proj1 (for_each_returns I _ _ _ fs _)); [|by split; [|rewrite Hc]].
      intros word fs' _. apply (for_each_returns I).
      intros pos fs'' ->%list_elem_of_singleton [Hu' Hs'].
      destruct (merge_pair_sound word "noun" path fs'' Hfm Hu' Hs') as (d' & _ & Hd' & ->).
      cbn [outcome files]. split; [done|]. unfold I. by rewrite lookup_insert_eq. }
    split; [done|].
    assert (path ∈ targets ["noun"]) as Hin by (rewrite targets_cons, Hfm; left).
    pose proof (merge_pending ["noun"] path ["cat"; "cat"; "dog"] Hin fs Hok) as Hpend.
    destruct (grown_merge_ok ["cat"; "cat"; "dog"] ["noun"] fs path Hok)
      as (Hsafe & Hunsafe & _).
    unfold pending, safe, unsafe in *. rewrite Hc in *.
    assert (List.filter (λ w, fresh w d) (first_occurrences ["cat"; "cat"; "dog"])
            = List.filter (λ w, negb (listed w d)) ["cat"; "dog"]) as Hfilter.
    { change (first_occurrences ["cat"; "cat"; "dog"]) with ["cat"; "dog"].
      apply List.filter_ext. intros w. apply fresh_schema, Hs. }
    rewrite Hfilter in Hpend. split; [done|]. split; [done|]. split; [done|].
    intros Hcat Hdog. rewrite Hpend. cbn [List.filter]. by rewrite Hcat, Hdog.
Qed.

Lemma merge_cycle_witness :
  loaded ∅ "Sources/PhraseKit/Resources/_noun.json" empty_record ∧
  sound empty_record ∧
  pending (files (main ("Cat" +:+ nl +:+ "cat" +:+ nl +:+ "dog") "noun" None ∅)
             !! "Sources/PhraseKit/Resources/_noun.json")
  = [Str.points "cat"; Str.points "dog"].
Proof.
  assert (loaded ∅ "Sources/PhraseKit/Resources/_noun.json" empty_record) as Hl
    by (left; split; reflexivity).
  assert (sound empty_record) as Hs by (split; reflexivity).
  split; [exact Hl|]. split; [exact Hs|].
  destruct merge_cycle as (_ & _ & _ & H).
  destruct (H None ∅ empty_record Hl Hs) as (_ & _ & _ & _ & Hp).
  exact (Hp eq_refl eq_refl).
Defined.

(** C2, as stated: the cycle need not end with the store persisted.  On
    a store that matches the schema and holds a lone surrogate the save
    raises and leaves a text that does not parse, for a word that the
    store does not list and for one that it lists; on a store without one
    of the three members the cycle raises before it writes. *)
Lemma cycle_may_not_persist :
  let path := "Sources/PhraseKit/Resources/_noun.json" in
  file_map !! "noun" = Some path ∧
  schema sample_surrogate_store = true ∧
  listed "emu" sample_surrogate_store = false ∧
  merge_pair "emu" "noun" sample_surrogate_files
  = Result (inl UnicodeEncodeError) (<[path := Unparsable]> sample_surrogate_files)
      [EvExists path; EvRead path; EvTruncate path] ∧
  listed "cat" sample_surrogate_store = true ∧
  merge_pair "cat" "noun" sample_surrogate_files
  = Result (inl UnicodeEncodeError) (<[path := Unparsable]> sample_surrogate_files)
      [EvExists path; EvRead path; EvTruncate path] ∧
  listed "dog" sample_bad_store = false ∧
  merge_pair "dog" "noun" sample_bad_files
  = Result (inl (KeyError "unsafe")) sample_bad_files [EvExists path; EvRead path].
Proof. by vm_compute. Qed.

(** C9.  After a run that ends with success, the pending list of the
    store of a recognised tag is what it was, followed, when the tag is
    in the batch, by the words of the batch that were new to the store,
    in the order of their first occurrence in the batch; the safe and the
    unsafe list are what they were.  For a store that matches the schema
    the new words are the ones that none of its three lists held. *)
Theorem pending_keeps_order WORDS POS ISSUE fs pos path :
  file_map !! pos = Some path →
  outcome (main WORDS POS ISSUE fs) = inr () →
  let f0 := fs !! path in
  let f := files (main WORDS POS ISSUE fs) !! path in
  let first := first_occurrences (normalize WORDS) in
  let new := List.filter (λ w, fresh w (content f0)) first in
  pending f
  = pending f0 ++ (if bool_decide (pos ∈ normalize POS) then Str.points <$> new else []) ∧
  safe f = safe f0 ∧ unsafe f = unsafe f0 ∧
  (schema (content f0) = true →
   new = List.filter (λ w, negb (listed w (content f0))) first).
Proof.
  intros Hp Hok f0 f first new.
  destruct (grown_main_ok WORDS POS ISSUE fs path Hok) as (Hs & Hu & _).
  fold f f0 in Hs, Hu.
  destruct (main_ok WORDS POS ISSUE fs Hok) as [Hmok Hfiles].
  split; [|split; [done|split; [done|]]].
  - subst f f0 new first. rewrite Hfiles. case_bool_decide as Hin.
    + apply merge_pending; [|done]. by apply (elem_of_targets_pos pos).
    + rewrite app_nil_r, merge_untouched; [done|].
      by rewrite (elem_of_targets_pos pos).
  - intros Hsc. apply List.filter_ext. intros w. by apply fresh_schema.
Qed.

Lemma pending_keeps_order_witness :
  file_map !! "noun" = Some "Sources/PhraseKit/Resources/_noun.json" ∧
  outcome (main ("emu" +:+ nl +:+ "dog" +:+ nl +:+ "ant" +:+ nl +:+ "emu" +:+ nl +:+ "cat")
                "noun" None sample_files) = inr () ∧
  pending (files (main ("emu" +:+ nl +:+ "dog" +:+ nl +:+ "ant" +:+ nl +:+ "emu" +:+ nl +:+ "cat")
                       "noun" None sample_files)
             !! "Sources/PhraseKit/Resources/_noun.json")
  = [Str.points "cat"; Str.points "emu"; Str.points "ant"].
Proof.
  assert (file_map !! "noun" = Some "Sources/PhraseKit/Resources/_noun.json") as Hp
    by reflexivity.
  assert (outcome (main ("emu" +:+ nl +:+ "dog" +:+ nl +:+ "ant" +:+ nl +:+ "emu" +:+ nl +:+ "cat")
                        "noun" None sample_files) = inr ()) as Hok by (by vm_compute).
  split; [exact Hp|]. split; [exact Hok|].
  destruct (pending_keeps_order _ _ _ _ _ _ Hp Hok) as [H _].
  rewrite H. by vm_compute.
Defined.

(** ** The unchecked assumption *)

Lemma main_admitted WORDS POS :
  admitted WORDS POS ↔
  normalize WORDS ≠ [] ∧ normalize POS ≠ [] ∧ invalid_words (normalize WORDS) = [].
Proof.
  unfold admitted. split; intros (Hw & Hp & Hv); (split; [done|split; [done|]]).
  - destruct (decide (invalid_words (normalize WORDS) = [])) as [|Hne]; [done|].
    apply exists_invalid in Hne as (w & Hin & Hf). specialize (Hv w Hin). congruence.
  - intros w Hin. destruct (Str.is_word w) eqn:Hf; [done|].
    exfalso. assert (invalid_words (normalize WORDS) ≠ []) as Hne; [|done].
    apply exists_invalid. eauto.
Qed.

(** C10, as amended.  When every store file that exists holds an object
    with the members [pending], [safe] and [unsafe], each a list of
    strings, and no lone surrogate, every load/merge/save cycle returns
    and keeps that shape, and a run that passes the checks before the
    loop ends with success.  Nothing checks the shape: loading returns
    whatever parses.  A store whose cycle returns for every word has the
    three members, a list under [pending] and no lone surrogate, and a
    document without one of the members makes the cycle raise. *)
Theorem schema_is_assumed :
  (∀ word pos path fs,
     file_map !! pos = Some path →
     (fs !! path = None ∨ ∃ d, fs !! path = Some (Document d) ∧ sound d) →
     ∃ d', outcome (merge_pair word pos fs) = inr () ∧
       files (merge_pair word pos fs) = <[path := Document d']> fs ∧
       sound d') ∧
  (∀ WORDS POS ISSUE fs,
     stores_sound fs →
     outcome (merge (normalize WORDS) (normalize POS) fs) = inr () ∧
     stores_sound (files (main WORDS POS ISSUE fs)) ∧
     (admitted WORDS POS → outcome (main WORDS POS ISSUE fs) = inr ())) ∧
  (∀ path d fs,
     fs !! path = Some (Document d) →
     load_or_create_json path fs = Result (inr d) fs [EvExists path; EvRead path]) ∧
  (∀ pos path d fs,
     file_map !! pos = Some path → fs !! path = Some (Document d) →
     (∀ word, Str.is_word word = true → outcome (merge_pair word pos fs) = inr ()) →
     Py.encodable d = true ∧
     ∃ items s u,
       Py.getitem d "pending" = inr (JArr items) ∧
       Py.getitem d "safe" = inr s ∧ Py.getitem d "unsafe" = inr u) ∧
  (schema sample_bad_store = false ∧
   outcome (load_or_create_json "Sources/PhraseKit/Resources/_noun.json" sample_bad_files)
   = inr sample_bad_store ∧
   outcome (main "dog" "noun" None sample_bad_files) = inl (KeyError "unsafe") ∧
   outcome (main "cat" "noun" None sample_bad_files) = inr ()).
Proof.
  split; [|split; [|split; [|split]]].
  - intros word pos path fs Hp Hfs.
    assert (fs !! path ≠ Some Unparsable ∧ sound (content (fs !! path))) as [Hu Hs].
    { destruct Hfs as [->|(d & -> & Hd)]; [|done]. split; [done|]. apply sound_empty_record. }
    destruct (merge_pair_sound word pos path fs Hp Hu Hs) as (d' & _ & Hs' & ->).
    by exists d'.
  - intros WORDS POS ISSUE fs Hfs.
    destruct (stores_sound_merge (normalize WORDS) (normalize POS) fs Hfs) as [Hok Hfs'].
    split; [done|]. split.
    + apply (main_files_ind stores_sound); [|done].
      intros word pos fs' _ _ Hfs''. by apply stores_sound_merge_pair.
    + intros (Hw & Hp & Hi)%main_admitted. by rewrite main_merge.
  - intros path d fs Hl. unfold load_or_create_json. by rewrite Hl.
  - intros pos path d fs Hfm Hl Hall.
    assert (∀ word, Str.is_word word = true →
              ∃ d', add_word word d = inr d' ∧ Py.encodable d' = true) as Hadd.
    { intros word Hw. pose proof (merge_pair_ok word pos fs (Hall word Hw)) as Hstep.
      rewrite Hfm, Hl in Hstep. cbn [content] in Hstep.
      destruct Hstep as (d' & Ha & _ & He & _). eauto. }
    split.
    + destruct (Hadd (long_word d) (long_word_is_word d)) as (d' & Ha & He).
      by rewrite <-(add_word_encodable _ _ _ Ha).
    + apply add_word_total_inv. intros word Hw.
      destruct (Hadd word Hw) as (d' & Ha & _). eauto.
  - by vm_compute.
Qed.

Lemma schema_is_assumed_witness :
  stores_sound sample_files ∧
  outcome (merge (normalize "emu") (normalize "noun") sample_files) = inr () ∧
  stores_sound (files (main "emu" "noun" None sample_files)).
Proof.
  assert (stores_sound sample_files) as H.
  { intros pos path Hp%file_map_cases.
    repeat (apply elem_of_cons in Hp as [[= -> ->]|Hp];
            [first [ by left; vm_compute | right; eexists; by vm_compute ]|]).
    by apply elem_of_nil in Hp. }
  destruct schema_is_assumed as (_ & Hrun & _).
  destruct (Hrun "emu" "noun" None sample_files H) as (Hok & Hfs & _).
  split; [exact H|]. split; [exact Hok | exact Hfs].
Defined.

(** C10, as stated: the shape is not enough, and it is not needed.  A
    store that matches the schema and holds a lone surrogate makes the
    save of the first cycle raise, and the run leaves a store that no
    longer parses; and on a store that does not match the schema, with a
    number in its pending list, the cycle returns for every word. *)
Lemma schema_neither_enough_nor_needed :
  let path := "Sources/PhraseKit/Resources/_noun.json" in
  (schema sample_surrogate_store = true ∧
   sample_surrogate_files !! path = Some (Document sample_surrogate_store) ∧
   outcome (main "emu" "noun" None sample_surrogate_files) = inl UnicodeEncodeError ∧
   exit_status (outcome (main "emu" "noun" None sample_surrogate_files)) = 1%Z ∧
   files (main "emu" "noun" None sample_surrogate_files) !! path = Some Unparsable) ∧
  (schema sample_odd_store = false ∧
   sample_odd_files !! path = Some (Document sample_odd_store) ∧
   ∀ word, outcome (merge_pair word "noun" sample_odd_files) = inr ()).
Proof.
  split; [by vm_compute|]. split; [done|]. split; [done|].
  intros word. rewrite (merge_pair_run _ _ "Sources/PhraseKit/Resources/_noun.json") by done.
  cbn zeta.
  change (sample_odd_files !! "Sources/PhraseKit/Resources/_noun.json")
    with (Some (Document sample_odd_store)).
  cbn [content].
  assert (is_new word sample_odd_store = inr true) as Hn by reflexivity.
  pose proof (add_word_new _ _ Hn) as Ha.
  change (Py.getitem sample_odd_store "pending") with (@inr exn _ (JArr [JNum "1"])) in Ha.
  rewrite Ha.
  erewrite encodable_mutated; [done|reflexivity|apply encodable_append].
Qed.
(** * Further properties of the code *)

(** ** The normaliser, lines 22-30 *)

Section normaliser.

Local Ltac by_cases_on c :=
  destruct c as [[] [] [] [] [] [] [] []]; vm_compute; try reflexivity; try discriminate.

Lemma lower_char_idemp c : Str.lower_char (Str.lower_char c) = Str.lower_char c.
Proof. by_cases_on c. Qed.

Lemma is_linebreak_lower_char c : Str.is_linebreak (Str.lower_char c) = Str.is_linebreak c.
Proof. by_cases_on c. Qed.

Lemma lower_char_LF c : bool_decide (Str.lower_char c = Str.LF) = bool_decide (c = Str.LF).
Proof. by_cases_on c. Qed.

Lemma lower_char_CR c : bool_decide (Str.lower_char c = Str.CR) = bool_decide (c = Str.CR).
Proof. by_cases_on c. Qed.

Lemma is_az_lower_char c : Str.is_az c = true → Str.lower_char c = c.
Proof. by_cases_on c. Qed.

Lemma is_az_not_linebreak c : Str.is_az c = true → Str.is_linebreak c = false.
Proof. by_cases_on c. Qed.

Lemma lower_idemp s : Str.lower (Str.lower s) = Str.lower s.
Proof. induction s as [|c s IH]; [done|]. simpl. by rewrite lower_char_idemp, IH. Qed.

Lemma lower_app a b : Str.lower (a +:+ b) = Str.lower a +:+ Str.lower b.
Proof. induction a as [|c a IH]; [done|]. rewrite !append_cons. simpl. by rewrite IH. Qed.

Lemma lstrip_lower s : Str.lstrip (Str.lower s) = Str.lower (Str.lstrip s).
Proof.
  induction s as [|c s IH]; [done|]. simpl. rewrite isspace_lower_char.
  by destruct (Str.isspace c).
Qed.

Lemma strip_lower s : Str.strip (Str.lower s) = Str.lower (Str.strip s).
Proof. unfold Str.strip. by rewrite lstrip_lower, rstrip_lower. Qed.

Lemma lstrip_no_lead s : no_lead (Str.lstrip s).
Proof.
  induction s as [|c s IH]; [done|]. simpl.
  destruct (Str.isspace c) eqn:Hc; [done|]. simpl. done.
Qed.

Lemma no_lead_lstrip s : no_lead s → Str.lstrip s = s.
Proof. destruct s as [|c s]; [done|]. simpl. by intros ->. Qed.

Lemma rstrip_no_lead s : no_lead s → no_lead (Str.rstrip s).
Proof.
  destruct s as [|c s]; [done|]. intros Hc. rewrite rstrip_cons. simpl in Hc.
  rewrite Hc, andb_false_r. done.
Qed.

Lemma lower_no_lead s : no_lead s → no_lead (Str.lower s).
Proof. destruct s as [|c s]; [done|]. simpl. by rewrite isspace_lower_char. Qed.

Lemma strip_idemp s : Str.strip (Str.strip s) = Str.strip s.
Proof.
  unfold Str.strip.
  rewrite (no_lead_lstrip (Str.rstrip (Str.lstrip s)))
    by apply rstrip_no_lead, lstrip_no_lead.
  apply rstrip_idemp.
Qed.

(** X1.  Every entry the normaliser returns is a non-empty string that
    [strip] and [lower] leave as it is: it has no white space at either
    end and no capital letter. *)
Theorem normalize_entries text w :
  w ∈ normalize text → w ≠ "" ∧ Str.strip w = w ∧ Str.lower w = w.
Proof.
  intros Hw. split; [by eapply normalize_truthy|].
  unfold normalize in Hw. apply list_elem_of_fmap in Hw as (x & -> & _).
  split; [|apply lower_idemp].
  by rewrite strip_lower, strip_idemp.
Qed.

Lemma normalize_entries_witness :
  "dog" ∈ normalize ("  Cat " +:+ nl +:+ nl +:+ " DOG") ∧
  "dog" ≠ "" ∧ Str.strip "dog" = "dog" ∧ Str.lower "dog" = "dog".
Proof.
  assert ("dog" ∈ normalize ("  Cat " +:+ nl +:+ nl +:+ " DOG")) as H
    by (vm_compute; right; left).
  split; [exact H|]. exact (normalize_entries _ _ H).
Defined.

Lemma splitlines_from_lower after_cr line s :
  Str.splitlines_from after_cr (Str.lower line) (Str.lower s)
  = Str.lower <$> Str.splitlines_from after_cr line s.
Proof.
  revert after_cr line. induction s as [|c s IH]; intros after_cr line.
  - simpl. rewrite (bool_decide_ext _ _ (lower_eq_empty line)).
    by case_bool_decide.
  - cbn [Str.lower Str.splitlines_from].
    rewrite lower_char_LF, is_linebreak_lower_char, lower_char_CR.
    destruct (after_cr && bool_decide (c = Str.LF)); [apply IH|].
    destruct (Str.is_linebreak c).
    + rewrite fmap_cons. f_equal. apply (IH _ "").
    + rewrite <-IH, lower_app. done.
Qed.

Lemma filter_fmap {X Y : Type} (f : Y → bool) (g : X → Y) (l : list X) :
  List.filter f (g <$> l) = g <$> List.filter (λ x, f (g x)) l.
Proof.
  induction l as [|x l IH]; [done|]. rewrite fmap_cons. simpl.
  destruct (f (g x)); by rewrite IH.
Qed.

(** X2.  The normaliser does not see the case of its input: a text and
    the same text in small letters give the same entries, so the script
    behaves the same on both. *)
Theorem normalize_ignores_case :
  (∀ text, normalize (Str.lower text) = normalize text) ∧
  (∀ WORDS POS ISSUE fs,
     main (Str.lower WORDS) (Str.lower POS) ISSUE fs = main WORDS POS ISSUE fs).
Proof.
  assert (∀ text, normalize (Str.lower text) = normalize text) as H.
  { intros text. unfold normalize, Str.splitlines.
    change "" with (Str.lower "") at 1. rewrite splitlines_from_lower.
    change (@map string string) with (@fmap list _ string string).
    rewrite filter_fmap, <-list_fmap_compose.
    erewrite List.filter_ext; [apply list_fmap_ext|].
    - intros i x _. cbn. by rewrite strip_lower, lower_idemp.
    - intros x. cbn. rewrite strip_lower. unfold Str.truthy.
      by rewrite (bool_decide_ext _ _ (lower_eq_empty _)). }
  split; [done|]. intros WORDS POS ISSUE fs. unfold main. by rewrite !H.
Qed.

End normaliser.

(** ** Reading a list of words back, lines 29 and 37 *)

Section reading.

Lemma append_nil_r s : s +:+ "" = s.
Proof. induction s as [|c s IH]; [done|]. by rewrite append_cons, IH. Qed.

Lemma append_assoc a b c : (a +:+ b) +:+ c = a +:+ (b +:+ c).
Proof. induction a as [|x a IH]; [done|]. by rewrite !append_cons, IH. Qed.

Lemma all_az_lower s : Str.all_az s = true → Str.lower s = s.
Proof.
  induction s as [|c s IH]; [done|]. simpl. intros [Hc Hs]%andb_true_iff.
  by rewrite is_az_lower_char, IH.
Qed.

Lemma all_az_rstrip s : Str.all_az s = true → Str.rstrip s = s.
Proof.
  induction s as [|c s IH]; [done|]. cbn [Str.all_az]. intros [Hc Hs]%andb_true_iff.
  rewrite rstrip_cons, IH, (is_az_not_space c), andb_false_r by done. done.
Qed.

Lemma all_az_strip s : Str.all_az s = true → Str.strip s = s.
Proof.
  intros Hs. unfold Str.strip. rewrite no_lead_lstrip.
  - by apply all_az_rstrip.
  - destruct s as [|c s]; [done|]. simpl in *.
    apply andb_true_iff in Hs as [Hc _]. by apply is_az_not_space.
Qed.

(** Letters read by [splitlines] join the line that is being read. *)
Lemma splitlines_from_letters w line rest :
  Str.all_az w = true →
  Str.splitlines_from false line (w +:+ rest)
  = Str.splitlines_from false (line +:+ w) rest.
Proof.
  revert line. induction w as [|c w IH]; intros line Hw.
  - by rewrite append_nil_r.
  - cbn [Str.all_az] in Hw. apply andb_true_iff in Hw as [Hc Hw].
    rewrite append_cons. cbn [Str.splitlines_from andb].
    rewrite (is_az_not_linebreak c Hc), IH by done.
    by rewrite append_assoc.
Qed.

Lemma splitlines_lines ws :
  Forall (λ w, Str.is_word w = true) ws → Str.splitlines (lines ws) = ws.
Proof.
  unfold lines, Str.join, Str.splitlines.
  induction ws as [|w ws IH]; [done|]. intros Hall.
  apply Forall_cons in Hall as [Hw Hall].
  unfold Str.is_word in Hw. apply andb_true_iff in Hw as [Hne Haz].
  destruct ws as [|w' ws].
  - cbn [String.concat]. rewrite <-(append_nil_r w) at 1.
    rewrite splitlines_from_letters by done.
    change ("" +:+ w) with w. cbn [Str.splitlines_from].
    unfold Str.truthy in Hne. apply negb_true_iff in Hne. by rewrite Hne.
  - change (String.concat nl (w :: w' :: ws))
      with (w +:+ nl +:+ String.concat nl (w' :: ws)).
    rewrite splitlines_from_letters by done.
    change ("" +:+ w) with w.
    unfold nl. rewrite append_cons. cbn [Str.splitlines_from andb].
    change (Str.is_linebreak Str.LF) with true. cbn iota.
    change (bool_decide (Str.LF = Str.CR)) with false.
    f_equal. apply IH, Hall.
Qed.

(** X3.  Valid words written one per line are read back as they are, in
    their order and with their repetitions. *)
Theorem normalize_lines ws :
  Forall (λ w, Str.is_word w = true) ws → normalize (lines ws) = ws.
Proof.
  intros Hall. unfold normalize. rewrite splitlines_lines by done.
  induction Hall as [|w ws Hw Hall IH]; [done|].
  unfold Str.is_word in Hw. apply andb_true_iff in Hw as [Hne Haz].
  cbn [List.filter]. rewrite all_az_strip, Hne by done. cbn [map].
  rewrite all_az_strip, all_az_lower by done. by rewrite IH.
Qed.

Lemma normalize_lines_witness :
  Forall (λ w, Str.is_word w = true) ["cat"; "dog"; "cat"] ∧
  normalize (lines ["cat"; "dog"; "cat"]) = ["cat"; "dog"; "cat"].
Proof.
  assert (Forall (λ w, Str.is_word w = true) ["cat"; "dog"; "cat"]) as H
    by (repeat constructor).
  split; [exact H|]. exact (normalize_lines _ H).
Defined.

Lemma skip_az_prefix s : ∃ pre, s = pre +:+ Str.skip_az s ∧ Str.all_az pre = true.
Proof.
  induction s as [|c s (pre & Hs & Hpre)]; [by exists ""|].
  cbn [Str.skip_az]. destruct (Str.is_az c) eqn:Hc.
  - exists (String c pre). rewrite append_cons, <-Hs. split; [done|].
    cbn. by rewrite Hc.
  - by exists "".
Qed.

Lemma skip_az_app pre t :
  Str.all_az pre = true →
  match t with
  | EmptyString => True
  | String c _ => Str.is_az c = false
  end →
  Str.skip_az (pre +:+ t) = t.
Proof.
  intros Hpre Ht. induction pre as [|c pre IH].
  - destruct t as [|c t]; [done|]. simpl. by rewrite Ht.
  - cbn [Str.all_az] in Hpre. apply andb_true_iff in Hpre as [Hc Hpre].
    rewrite append_cons. cbn [Str.skip_az]. rewrite Hc. by apply IH.
Qed.

(** X4.  The regular expression of line 37 accepts the valid words and,
    besides them, a valid word followed by one line feed, and nothing
    else. *)
Theorem re_match_az_accepts s :
  Str.re_match_az s = true ↔
  Str.is_word s = true ∨ ∃ w, Str.is_word w = true ∧ s = w +:+ nl.
Proof.
  split.
  - destruct s as [|c r]; [done|]. unfold Str.re_match_az.
    intros [Hc Hr]%andb_true_iff.
    destruct (skip_az_prefix r) as (pre & Hpre & Haz).
    apply orb_true_iff in Hr as [Hr%bool_decide_eq_true|Hr%bool_decide_eq_true];
      rewrite Hr in Hpre.
    + left. rewrite append_nil_r in Hpre. subst r.
      unfold Str.is_word. cbn. by rewrite Hc, Haz.
    + right. exists (String c pre). split.
      * unfold Str.is_word. cbn. by rewrite Hc, Haz.
      * rewrite append_cons. by rewrite Hpre.
  - intros [Hs|(w & Hw & ->)].
    + destruct s as [|c r]; [done|]. unfold Str.is_word in Hs. cbn [Str.all_az] in Hs.
      apply andb_true_iff in Hs as [_ [Hc Hr]%andb_true_iff]. unfold Str.re_match_az.
      rewrite Hc. cbn [andb].
      rewrite <-(append_nil_r r), skip_az_app by done. done.
    + destruct w as [|c r]; [done|]. unfold Str.is_word in Hw. cbn [Str.all_az] in Hw.
      apply andb_true_iff in Hw as [_ [Hc Hr]%andb_true_iff]. rewrite append_cons.
      unfold Str.re_match_az. rewrite Hc. cbn [andb].
      rewrite skip_az_app by done. done.
Qed.

End reading.

(** ** What a run leaves alone *)

Section frame.

(** X6.  A run changes no file but the stores of the tags of its batch:
    every other path holds at the end what it held at the start.  It
    removes no file, and a file that does not parse is left as it is. *)
Theorem run_frame WORDS POS ISSUE fs path :
  let r := main WORDS POS ISSUE fs in
  (path ∉ targets (normalize POS) → files r !! path = fs !! path) ∧
  (is_Some (fs !! path) → is_Some (files r !! path)) ∧
  (fs !! path = Some Unparsable → files r !! path = Some Unparsable).
Proof.
  intros r. subst r.
  apply (main_files_ind
           (λ fs', (path ∉ targets (normalize POS) → fs' !! path = fs !! path) ∧
                   (is_Some (fs !! path) → is_Some (fs' !! path)) ∧
                   (fs !! path = Some Unparsable → fs' !! path = Some Unparsable)));
    [|done].
  intros word pos fs' _ Hpos (Hout & Hsome & Hbad).
  destruct (merge_pair_files word pos fs')
    as [->|[(Q & items & HQ & _ & Hnb & _ & _ & _ & ->)|(Q & d & HQ & _ & Hl & _ & ->)]];
    [done|..]; (destruct (decide (Q = path)) as [->|Hne]; [|by rewrite lookup_insert_ne]);
    rewrite lookup_insert_eq; (split; [|split]); try done.
  - intros Hno. exfalso. apply Hno, elem_of_targets. by exists pos.
  - intros Hu. by apply Hbad in Hu.
  - intros Hno. exfalso. apply Hno, elem_of_targets. by exists pos.
Qed.

Lemma run_frame_witness :
  ("notes.txt" ∉ targets (normalize "noun")) ∧
  files (main "emu" "noun" None (<["notes.txt" := Unparsable]> sample_files)) !! "notes.txt"
  = Some Unparsable.
Proof.
  assert ("notes.txt" ∉ targets (normalize "noun")) as H.
  { vm_compute. intros Hin. apply list_elem_of_singleton in Hin. discriminate. }
  split; [exact H|].
  destruct (run_frame "emu" "noun" None (<["notes.txt" := Unparsable]> sample_files)
              "notes.txt") as (_ & _ & Hbad).
  apply Hbad. by vm_compute.
Defined.

(** X7.  A store that is missing, or holds a record that matches the
    schema and has no lone surrogate, is missing or holds such a record
    after a run, whatever the other stores hold and however the run ends;
    so every store file the script makes matches the schema. *)
Theorem well_formed_kept WORDS POS ISSUE fs path :
  well_formed (fs !! path) → well_formed (files (main WORDS POS ISSUE fs) !! path).
Proof.
  apply (main_files_ind (λ fs', well_formed (fs' !! path))).
  intros word pos fs' _ _ Hwf.
  destruct (merge_pair_files word pos fs')
    as [->|[(Q & items & HQ & _ & Hnb & _ & Hi & He & ->)|(Q & d & HQ & _ & Hl & He & ->)]];
    [done|..]; (destruct (decide (Q = path)) as [->|Hne]; [|by rewrite lookup_insert_ne]).
  - rewrite lookup_insert_eq. right. eexists. split; [done|].
    assert (schema (content (fs' !! path)) = true) as Hs.
    { destruct Hwf as [->|(d & -> & Hd & _)]; done. }
    split; [by apply schema_appended|].
    erewrite encodable_mutated; [done..|apply encodable_append].
  - exfalso. destruct Hwf as [Hn|(d' & Hd' & _ & He')]; congruence.
Qed.

Lemma well_formed_kept_witness :
  well_formed ((∅ : gmap string file) !! "Sources/PhraseKit/Resources/_verb.json") ∧
  well_formed (files (main "run" "verb" None ∅) !! "Sources/PhraseKit/Resources/_verb.json").
Proof.
  assert (well_formed ((∅ : gmap string file) !! "Sources/PhraseKit/Resources/_verb.json"))
    as H by (by left).
  split; [exact H|]. exact (well_formed_kept "run" "verb" None ∅ _ H).
Defined.

End frame.

(** ** What a successful run has done *)

Section success.

(** X8.  After a run that ends with success, the store of every
    recognised tag of the batch exists and the membership test of line 83
    finds every word of the batch in it; when the store matches the
    schema, the word is in one of its three lists. *)
Theorem batch_is_stored WORDS POS ISSUE fs word pos path :
  outcome (main WORDS POS ISSUE fs) = inr () →
  word ∈ normalize WORDS → pos ∈ normalize POS → file_map !! pos = Some path →
  ∃ d, files (main WORDS POS ISSUE fs) !! path = Some (Document d) ∧
    is_new word d = inr false ∧
    (schema d = true → listed word d = true).
Proof.
  intros Hok Hw Hp Hfm.
  destruct (main_ok WORDS POS ISSUE fs Hok) as [Hmok ->].
  pose proof (merge_settles _ _ fs Hmok word pos Hw Hp) as Hs.
  apply settled_iff in Hs as [Hs|(path' & d & Hfm' & Hl & Hn & _)]; [congruence|].
  assert (path' = path) as -> by congruence.
  exists d. split; [done|]. split; [done|].
  intros Hsc. by apply listed_after.
Qed.

Lemma batch_is_stored_witness :
  outcome (main ("emu" +:+ nl +:+ "Dog") "noun" None sample_files) = inr () ∧
  "dog" ∈ normalize ("emu" +:+ nl +:+ "Dog") ∧ "noun" ∈ normalize "noun" ∧
  file_map !! "noun" = Some "Sources/PhraseKit/Resources/_noun.json" ∧
  ∃ d, files (main ("emu" +:+ nl +:+ "Dog") "noun" None sample_files)
         !! "Sources/PhraseKit/Resources/_noun.json" = Some (Document d) ∧
    is_new "dog" d = inr false ∧ (schema d = true → listed "dog" d = true).
Proof.
  assert (outcome (main ("emu" +:+ nl +:+ "Dog") "noun" None sample_files) = inr ()) as H1
    by (by vm_compute).
  assert ("dog" ∈ normalize ("emu" +:+ nl +:+ "Dog")) as H2 by (vm_compute; right; left).
  assert ("noun" ∈ normalize "noun") as H3 by (vm_compute; left).
  assert (file_map !! "noun" = Some "Sources/PhraseKit/Resources/_noun.json") as H4
    by reflexivity.
  split; [exact H1|]. split; [exact H2|]. split; [exact H3|]. split; [exact H4|].
  exact (batch_is_stored _ _ None _ _ _ _ H1 H2 H3 H4).
Defined.

(** X9.  With every store file missing or holding a record that matches
    the schema and has no lone surrogate, a run ends with status 0
    exactly when the batch has a word, a tag and no invalid word;
    otherwise it ends with status 1, whatever the issue number is. *)
Theorem success_criterion WORDS POS ISSUE fs :
  stores_sound fs →
  (exit_status (outcome (main WORDS POS ISSUE fs)) = 0%Z ↔ admitted WORDS POS) ∧
  (exit_status (outcome (main WORDS POS ISSUE fs)) = 0%Z ∨
   exit_status (outcome (main WORDS POS ISSUE fs)) = 1%Z).
Proof.
  intros Hfs.
  destruct (main_cases WORDS POS) as [H|[(Hw&Hp&Hi)|(Hw&Hp&Hi)]].
  - rewrite main_no_input by done. cbn. split; [|by right].
    split; [done|]. intros (? & ? & _). by destruct H.
  - rewrite main_invalid by done.
    destruct (rejection_run ISSUE (invalid_message (invalid_words (normalize WORDS))) fs)
      as (_ & -> & _).
    split; [|by right].
    split; [done|]. intros (_ & _ & Hi')%main_admitted. done.
  - rewrite main_merge by done. cbn [outcome].
    destruct (stores_sound_merge (normalize WORDS) (normalize POS) fs Hfs) as [-> _].
    cbn. split; [|by left]. split; [|done]. intros _. by apply main_admitted.
Qed.

Lemma success_criterion_witness :
  stores_sound sample_files ∧
  (exit_status (outcome (main "emu" "noun" None sample_files)) = 0%Z ↔ admitted "emu" "noun").
Proof.
  assert (stores_sound sample_files) as H.
  { intros pos path Hp%file_map_cases.
    repeat (apply elem_of_cons in Hp as [[= -> ->]|Hp];
            [first [ by left; vm_compute | right; eexists; by vm_compute ]|]).
    by apply elem_of_nil in Hp. }
  split; [exact H|]. exact (proj1 (success_criterion "emu" "noun" None sample_files H)).
Defined.

End success.

(** ** How often the stores are opened *)

Section counting.

(** X10.  A run that ends with success has loaded and saved a store once
    for every pair of a word of the batch and a recognised tag of the
    batch, repetitions counted: it never gathers the words of one store
    into a single load and save. *)
Theorem one_cycle_per_pair WORDS POS ISSUE fs :
  outcome (main WORDS POS ISSUE fs) = inr () →
  saves (trace (main WORDS POS ISSUE fs))
  = length (normalize WORDS) * length (targets (normalize POS)) ∧
  loads (trace (main WORDS POS ISSUE fs))
  = length (normalize WORDS) * length (targets (normalize POS)).
Proof.
  intros Hok. destruct (main_ok WORDS POS ISSUE fs Hok) as [Hmok _].
  destruct (merge_counts _ _ fs Hmok) as [Hs Hl].
  destruct (main_cases WORDS POS) as [H|[(?&?&?)|(?&?&?)]].
  - by rewrite main_no_input in Hok.
  - rewrite main_invalid in Hok by done. by apply rejection_outcome in Hok.
  - rewrite main_merge by done. cbn [trace]. rewrite Hmok.
    change (EvMkdir base_path :: ?t) with ([EvMkdir base_path] ++ t).
    rewrite !saves_app, !loads_app, Hs, Hl. cbn. lia.
Qed.

Lemma one_cycle_per_pair_witness :
  outcome (main ("emu" +:+ nl +:+ "emu" +:+ nl +:+ "ant")
                ("noun" +:+ nl +:+ "pronoun" +:+ nl +:+ "noun" +:+ nl +:+ "verb")
                None sample_files) = inr () ∧
  saves (trace (main ("emu" +:+ nl +:+ "emu" +:+ nl +:+ "ant")
                     ("noun" +:+ nl +:+ "pronoun" +:+ nl +:+ "noun" +:+ nl +:+ "verb")
                     None sample_files)) = 9.
Proof.
  assert (outcome (main ("emu" +:+ nl +:+ "emu" +:+ nl +:+ "ant")
                        ("noun" +:+ nl +:+ "pronoun" +:+ nl +:+ "noun" +:+ nl +:+ "verb")
                        None sample_files) = inr ()) as H by (by vm_compute).
  split; [exact H|].
  destruct (one_cycle_per_pair _ _ _ _ H) as [Hs _]. rewrite Hs. by vm_compute.
Defined.

Lemma invalid_message_head invalid : invalid_message invalid ≠ success_text.
Proof. unfold invalid_message, success_text. rewrite append_cons. discriminate. Qed.

(** X11.  The directory of the stores is made exactly when the batch has
    a word, a tag and no invalid word, whether or not a tag is recognised
    and however the merge ends; and the closing text is printed exactly
    when the run ends with success. *)
Theorem run_announcements WORDS POS ISSUE fs :
  (EvMkdir base_path ∈ trace (main WORDS POS ISSUE fs) ↔ admitted WORDS POS) ∧
  (EvPrint success_text ∈ trace (main WORDS POS ISSUE fs)
   ↔ outcome (main WORDS POS ISSUE fs) = inr ()).
Proof.
  pose proof (merge_trace (normalize WORDS) (normalize POS) fs) as Ht.
  rewrite Forall_forall in Ht.
  destruct (main_cases WORDS POS) as [H|[(Hw&Hp&Hi)|(Hw&Hp&Hi)]].
  - rewrite main_no_input by done. cbn [trace outcome]. split; split.
    + by intros [=]%list_elem_of_singleton.
    + intros (? & ? & _). by destruct H.
    + by intros [=]%list_elem_of_singleton.
    + done.
  - rewrite main_invalid by done.
    destruct (rejection_run ISSUE (invalid_message (invalid_words (normalize WORDS))) fs)
      as (_ & _ & Hno & _ & _ & Hev).
    split; split.
    + intros [[=]|(n & _ & [=])]%Hev.
    + by intros (_ & _ & Hi')%main_admitted.
    + intros [He|(n & _ & [=])]%Hev. injection He as He.
      exfalso. by apply (invalid_message_head (invalid_words (normalize WORDS))).
    + done.
  - rewrite main_merge by done. cbn [trace outcome]. split; split.
    + intros _. by apply main_admitted.
    + intros _. left.
    + intros [?|[Hin|Hin]%elem_of_app]%elem_of_cons; [done| |].
      * by apply Ht in Hin.
      * destruct (outcome _) as [e|[]]; [by apply elem_of_nil in Hin | done].
    + intros Hok. rewrite Hok. right. apply elem_of_app. right. left.
Qed.

End counting.

(** ** Exceptions of the merge loop *)

Section exceptions.

Lemma getitem_not_exit d k n : Py.getitem d k ≠ inl (SystemExit n).
Proof. destruct d; simpl; try done. by destruct (Py.assoc (Str.points k) members). Qed.

Lemma contains_not_exit w x n : Py.contains w x ≠ inl (SystemExit n).
Proof. by destruct x. Qed.

Lemma append_not_exit x w n : Py.append x w ≠ inl (SystemExit n).
Proof. by destruct x. Qed.

Lemma is_new_not_exit word d n : is_new word d ≠ inl (SystemExit n).
Proof.
  unfold is_new, mbind, E_bind, mret, E_ret.
  destruct (Py.getitem d "pending") as [e|p] eqn:Hp; [by intros [= ->]; eapply getitem_not_exit|].
  destruct (Py.contains word p) as [e|[]] eqn:Hcp; [by intros [= ->]; eapply contains_not_exit|done|].
  destruct (Py.getitem d "safe") as [e|s] eqn:Hs; [by intros [= ->]; eapply getitem_not_exit|].
  destruct (Py.contains word s) as [e|[]] eqn:Hcs; [by intros [= ->]; eapply contains_not_exit|done|].
  destruct (Py.getitem d "unsafe") as [e|u] eqn:Hu; [by intros [= ->]; eapply getitem_not_exit|].
  destruct (Py.contains word u) as [e|b] eqn:Hcu; [by intros [= ->]; eapply contains_not_exit|done].
Qed.

Lemma add_word_not_exit word d n : add_word word d ≠ inl (SystemExit n).
Proof.
  destruct (is_new word d) as [e|[]] eqn:Hn.
  - rewrite (add_word_raise _ _ e) by done. intros [= ->]. by eapply is_new_not_exit.
  - pose proof (add_word_new _ _ Hn) as Ha.
    destruct (Py.getitem d "pending") as [e|[]]; by rewrite Ha.
  - by rewrite add_word_old.
Qed.

Lemma merge_pair_not_exit word pos fs n :
  outcome (merge_pair word pos fs) ≠ inl (SystemExit n).
Proof.
  destruct (file_map !! pos) as [path|] eqn:Hp; [|by rewrite merge_pair_skip].
  rewrite (merge_pair_run _ _ path) by done. cbn zeta.
  destruct (fs !! path) as [[|d]|]; [done|..]; cbn [content];
    (destruct (add_word word _) as [e|d'] eqn:Ha; [|by destruct (Py.encodable d')]);
    cbn [outcome]; intros [= ->]; by eapply add_word_not_exit.
Qed.

(** An exception of a loop is the exception of one of its rounds. *)
Lemma for_each_raises {A : Type} (body : A → M ()) l e :
  ∀ fs, outcome (for_each l body fs) = inl e →
    ∃ x fs', x ∈ l ∧ outcome (body x fs') = inl e.
Proof.
  induction l as [|x l IH]; intros fs; [done|].
  rewrite for_each_cons.
  destruct (outcome (body x fs)) as [e'|[]] eqn:Ho; cbn [outcome].
  - intros [= ->]. exists x, fs. split; [left | done].
  - intros (y & fs' & Hy & He)%IH. exists y, fs'. split; [by right | done].
Qed.

Lemma merge_not_exit word_list pos_list fs n :
  outcome (merge word_list pos_list fs) ≠ inl (SystemExit n).
Proof.
  unfold merge. intros (word & fs' & _ & (pos & fs'' & _ & He)%for_each_raises)%for_each_raises.
  by eapply merge_pair_not_exit.
Qed.

Lemma unparsable_kept word_list pos_list fs path :
  fs !! path = Some Unparsable →
  files (merge word_list pos_list fs) !! path = Some Unparsable.
Proof.
  apply (merge_files_ind (λ fs', fs' !! path = Some Unparsable)).
  intros word pos fs' _ _ Hu.
  destruct (merge_pair_files word pos fs')
    as [->|[(Q & items & _ & _ & Hnb & _ & _ & _ & ->)|(Q & d & _ & _ & Hl & _ & ->)]];
    [done|..]; (destruct (decide (Q = path)) as [->|Hne]; [|by rewrite lookup_insert_ne]).
  - done.
  - by rewrite lookup_insert_eq.
Qed.

(** X12.  When a batch passes the checks and the store of one of its
    recognised tags holds a file that does not parse, the run raises an
    exception that is not one of the script's own exits, ends with status
    1, and leaves that file as it is. *)
Theorem unparsable_store_stops_run WORDS POS ISSUE fs pos path :
  admitted WORDS POS →
  pos ∈ normalize POS → file_map !! pos = Some path →
  fs !! path = Some Unparsable →
  ∃ e, outcome (main WORDS POS ISSUE fs) = inl e ∧ (∀ n, e ≠ SystemExit n) ∧
    exit_status (outcome (main WORDS POS ISSUE fs)) = 1%Z ∧
    files (main WORDS POS ISSUE fs) !! path = Some Unparsable.
Proof.
  intros (Hw & Hp & Hi)%main_admitted Hpos Hfm Hu.
  rewrite main_merge by done. cbn [outcome files].
  pose proof (unparsable_kept (normalize WORDS) (normalize POS) fs path Hu) as Hkept.
  destruct (outcome (merge (normalize WORDS) (normalize POS) fs)) as [e|[]] eqn:Ho.
  - exists e. split; [done|].
    assert (∀ n, e ≠ SystemExit n) as Hne.
    { intros n ->. by eapply merge_not_exit. }
    split; [done|]. split; [|done]. destruct e; try done. by destruct (Hne status).
  - exfalso. destruct (normalize WORDS) as [|word wl] eqn:Hwl; [done|].
    assert (settled word pos (files (merge (word :: wl) (normalize POS) fs))) as Hs.
    { apply merge_settles; [done | left | done]. }
    apply settled_iff in Hs as [Hs|(path' & d & Hfm' & Hl & _ & _)]; [congruence|].
    assert (path' = path) as -> by congruence. congruence.
Qed.

Lemma unparsable_store_stops_run_witness :
  admitted "emu" "noun" ∧ "noun" ∈ normalize "noun" ∧
  file_map !! "noun" = Some "Sources/PhraseKit/Resources/_noun.json" ∧
  sample_unparsable_files !! "Sources/PhraseKit/Resources/_noun.json" = Some Unparsable ∧
  ∃ e, outcome (main "emu" "noun" None sample_unparsable_files) = inl e ∧
    (∀ n, e ≠ SystemExit n) ∧
    exit_status (outcome (main "emu" "noun" None sample_unparsable_files)) = 1%Z ∧
    files (main "emu" "noun" None sample_unparsable_files)
      !! "Sources/PhraseKit/Resources/_noun.json" = Some Unparsable.
Proof.
  assert (admitted "emu" "noun") as H1.
  { split; [by vm_compute|]. split; [by vm_compute|].
    intros w Hw. vm_compute in Hw. apply list_elem_of_singleton in Hw as ->. reflexivity. }
  assert ("noun" ∈ normalize "noun") as H2 by (vm_compute; left).
  assert (file_map !! "noun" = Some "Sources/PhraseKit/Resources/_noun.json") as H3
    by reflexivity.
  assert (sample_unparsable_files !! "Sources/PhraseKit/Resources/_noun.json"
          = Some Unparsable) as H4 by (by vm_compute).
  split; [exact H1|]. split; [exact H2|]. split; [exact H3|]. split; [exact H4|].
  exact (unparsable_store_stops_run "emu" "noun" None sample_unparsable_files "noun" _
           H1 H2 H3 H4).
Defined.

End exceptions.

(** ** The tags of a batch as a set *)

Section tag_sets.

Lemma inner_loop_same word pos_list pos_list' fs :
  (∀ path, path ∈ targets pos_list ↔ path ∈ targets pos_list') →
  outcome (for_each pos_list (merge_pair word) fs) = inr () →
  outcome (for_each pos_list' (merge_pair word) fs) = inr () →
  files (for_each pos_list (merge_pair word) fs)
  = files (for_each pos_list' (merge_pair word) fs).
Proof.
  intros Hsame Hok Hok'. apply map_eq. intros path.
  destruct (inner_loop word pos_list path fs Hok) as [Hout Hin].
  destruct (inner_loop word pos_list' path fs Hok') as [Hout' Hin'].
  destruct (decide (path ∈ targets pos_list)) as [Ht|Ht].
  - destruct (Hin Ht) as (d & Ha & ->).
    destruct (Hin' (proj1 (Hsame path) Ht)) as (d' & Ha' & ->). congruence.
  - rewrite Hout by done. rewrite Hout'; [done|]. by rewrite <-Hsame.
Qed.

Lemma merge_same word_list pos_list pos_list' :
  (∀ path, path ∈ targets pos_list ↔ path ∈ targets pos_list') →
  ∀ fs, outcome (merge word_list pos_list fs) = inr () →
    outcome (merge word_list pos_list' fs) = inr () →
    files (merge word_list pos_list fs) = files (merge word_list pos_list' fs).
Proof.
  intros Hsame. induction word_list as [|word wl IH]; intros fs Hok Hok'; [done|].
  rewrite merge_cons in Hok, Hok'. rewrite !merge_cons. cbn zeta in *.
  destruct (outcome (for_each pos_list (merge_pair word) fs)) as [e|[]] eqn:Ho; [done|].
  destruct (outcome (for_each pos_list' (merge_pair word) fs)) as [e|[]] eqn:Ho'; [done|].
  cbn [outcome files] in *.
  rewrite <-(inner_loop_same word pos_list pos_list' fs Hsame Ho Ho') in Hok' |- *.
  by apply IH.
Qed.

(** X13.  Only the set of the tags of a batch matters: two successful
    runs on the same words and the same files, with tag lists that hold
    the same tags in any order and any number of times, leave the same
    files. *)
Theorem tags_as_a_set WORDS POS POS' ISSUE fs :
  (∀ pos, pos ∈ normalize POS ↔ pos ∈ normalize POS') →
  outcome (main WORDS POS ISSUE fs) = inr () →
  outcome (main WORDS POS' ISSUE fs) = inr () →
  files (main WORDS POS ISSUE fs) = files (main WORDS POS' ISSUE fs).
Proof.
  intros Hsame Hok Hok'.
  destruct (main_ok WORDS POS ISSUE fs Hok) as [Hmok ->].
  destruct (main_ok WORDS POS' ISSUE fs Hok') as [Hmok' ->].
  apply merge_same; [|done..].
  intros path. rewrite !elem_of_targets. split.
  - intros (pos & Hin & Hfm). exists pos. by rewrite <-Hsame.
  - intros (pos & Hin & Hfm). exists pos. by rewrite Hsame.
Qed.

Lemma tags_as_a_set_witness :
  files (main "emu" ("noun" +:+ nl +:+ "verb" +:+ nl +:+ "noun") None sample_files)
  = files (main "emu" ("verb" +:+ nl +:+ "noun") None sample_files).
Proof.
  apply tags_as_a_set.
  - intros pos. vm_compute (normalize _).
    rewrite !elem_of_cons, !elem_of_nil. tauto.
  - by vm_compute.
  - by vm_compute.
Defined.

End tag_sets.

(** ** Words written more than once *)

Section repeated.

Lemma settled_all_keep word pos_list word' fs :
  (∀ pos, pos ∈ pos_list → settled word pos fs) →
  ∀ pos, pos ∈ pos_list →
    settled word pos (files (for_each pos_list (merge_pair word') fs)).
Proof.
  intros Hall pos Hpos.
  apply (for_each_files_ind (settled word pos)); [|by apply Hall].
  intros pos' fs' _. apply settled_keep.
Qed.

(** A word that has nothing left to do can be dropped from the batch. *)
Lemma merge_drop word pos_list word_list :
  ∀ fs, (∀ pos, pos ∈ pos_list → settled word pos fs) →
    outcome (merge word_list pos_list fs)
    = outcome (merge (List.filter (λ y, negb (bool_decide (y = word))) word_list) pos_list fs) ∧
    files (merge word_list pos_list fs)
    = files (merge (List.filter (λ y, negb (bool_decide (y = word))) word_list) pos_list fs).
Proof.
  induction word_list as [|x wl IH]; intros fs Hall; [done|].
  cbn [List.filter]. case_bool_decide as Hx; cbn [negb].
  - subst x. rewrite merge_cons. cbn zeta.
    destruct (for_each_settled (merge_pair word) (settled word)
                (λ pos fs' (H : settled word pos fs'), H) pos_list fs Hall) as [Ho Hf].
    rewrite Ho, Hf. cbn [outcome files]. by apply IH.
  - rewrite !merge_cons. cbn zeta.
    destruct (outcome (for_each pos_list (merge_pair x) fs)) as [e|[]] eqn:Ho; [done|].
    cbn [outcome files]. apply IH. by apply settled_all_keep.
Qed.

Lemma merge_first_occurrences pos_list word_list :
  ∀ fs,
    outcome (merge word_list pos_list fs)
    = outcome (merge (first_occurrences word_list) pos_list fs) ∧
    files (merge word_list pos_list fs)
    = files (merge (first_occurrences word_list) pos_list fs).
Proof.
  induction word_list as [|x wl IH]; intros fs; [done|].
  cbn [first_occurrences]. rewrite !merge_cons. cbn zeta.
  destruct (outcome (for_each pos_list (merge_pair x) fs)) as [e|[]] eqn:Ho; [done|].
  cbn [outcome files]. set (fs1 := files (for_each pos_list (merge_pair x) fs)).
  destruct (IH fs1) as [-> ->].
  apply merge_drop. intros pos Hpos.
  apply (for_each_settles (merge_pair x) (settled x)
           (λ pos fs', settled_after x pos fs')
           (λ pos pos' fs', settled_keep x pos x pos' fs') pos_list fs Ho pos Hpos).
Qed.

Lemma elem_of_first_occurrences w l : w ∈ first_occurrences l ↔ w ∈ l.
Proof.
  induction l as [|x l IH]; [done|]. cbn [first_occurrences].
  rewrite !elem_of_cons, list_elem_of_In, filter_In, <-list_elem_of_In, IH.
  rewrite negb_true_iff, bool_decide_eq_false.
  destruct (decide (w = x)); tauto.
Qed.

(** X14.  Writing a word of the batch more than once changes nothing:
    the run on the words without their repetitions ends with the same
    status and leaves the same files. *)
Theorem repeated_words WORDS WORDS' POS ISSUE fs :
  normalize WORDS' = first_occurrences (normalize WORDS) →
  files (main WORDS' POS ISSUE fs) = files (main WORDS POS ISSUE fs) ∧
  exit_status (outcome (main WORDS' POS ISSUE fs))
  = exit_status (outcome (main WORDS POS ISSUE fs)).
Proof.
  intros Heq.
  assert (normalize WORDS' = [] ↔ normalize WORDS = []) as Hnil.
  { rewrite Heq. by destruct (normalize WORDS). }
  assert (invalid_words (normalize WORDS') = [] ↔ invalid_words (normalize WORDS) = [])
    as Hinv.
  { rewrite !invalid_words_nil, Heq. split; intros H w Hw; apply H.
    - by apply (proj2 (elem_of_first_occurrences w _)).
    - by apply (proj1 (elem_of_first_occurrences w _)). }
  destruct (main_cases WORDS POS) as [H|[(Hw&Hp&Hi)|(Hw&Hp&Hi)]].
  - rewrite (main_no_input WORDS) by done.
    rewrite (main_no_input WORDS'); [done|]. destruct H; [left; by apply Hnil | by right].
  - rewrite (main_invalid WORDS) by done.
    rewrite (main_invalid WORDS'); [|by rewrite Hnil|done|by rewrite Hinv].
    destruct (rejection_run ISSUE (invalid_message (invalid_words (normalize WORDS))) fs)
      as (-> & -> & _).
    destruct (rejection_run ISSUE (invalid_message (invalid_words (normalize WORDS'))) fs)
      as (-> & -> & _).
    done.
  - rewrite (main_merge WORDS) by done.
    rewrite (main_merge WORDS'); [|by rewrite Hnil|done|by apply Hinv].
    cbn [files outcome]. rewrite Heq.
    by destruct (merge_first_occurrences (normalize POS) (normalize WORDS) fs) as [-> ->].
Qed.

Lemma repeated_words_witness :
  normalize ("emu" +:+ nl +:+ "ant")
  = first_occurrences (normalize ("Emu" +:+ nl +:+ "ant" +:+ nl +:+ "emu")) ∧
  files (main ("emu" +:+ nl +:+ "ant") "noun" None sample_files)
  = files (main ("Emu" +:+ nl +:+ "ant" +:+ nl +:+ "emu") "noun" None sample_files).
Proof.
  assert (normalize ("emu" +:+ nl +:+ "ant")
          = first_occurrences (normalize ("Emu" +:+ nl +:+ "ant" +:+ nl +:+ "emu"))) as H
    by reflexivity.
  split; [exact H|]. exact (proj1 (repeated_words _ _ "noun" None sample_files H)).
Defined.

End repeated.

(** ** A save that raises *)

Section lost.

Lemma content_not_encodable (f : option file) :
  Py.encodable (content f) = false → ∃ d, f = Some (Document d) ∧ Py.encodable d = false.
Proof.
  destruct f as [[|d]|]; cbn [content]; rewrite ?encodable_empty_record; try done.
  intros He. by exists d.
Qed.

(** X15.  A run leaves a store file with a text that does not parse,
    where it found one that parsed, only through a save that raised: the
    run then ended with [UnicodeEncodeError] and status 1 after the
    checks had passed, the store is the one of a tag of the batch, and
    the record it held had a lone surrogate.  A store whose record can be
    written is never lost. *)
Theorem store_lost_by_failed_save WORDS POS ISSUE fs path :
  fs !! path ≠ Some Unparsable →
  files (main WORDS POS ISSUE fs) !! path = Some Unparsable →
  outcome (main WORDS POS ISSUE fs) = inl UnicodeEncodeError ∧
  exit_status (outcome (main WORDS POS ISSUE fs)) = 1%Z ∧
  admitted WORDS POS ∧ path ∈ targets (normalize POS) ∧
  ∃ d, fs !! path = Some (Document d) ∧ Py.encodable d = false.
Proof.
  intros Hnu Hlost.
  pose proof (lost_store_outcome WORDS POS ISSUE fs path Hnu Hlost) as Ho.
  split; [done|]. split; [by rewrite Ho|].
  split; [|split].
  - destruct (main_cases WORDS POS) as [H|[(?&?&?)|(?&?&?)]].
    + rewrite main_no_input in Hlost by done. done.
    + rewrite main_invalid, rejection_files in Hlost by done. done.
    + by apply main_admitted.
  - destruct (decide (path ∈ targets (normalize POS))) as [|Hno]; [done|]. exfalso.
    destruct (main_cases WORDS POS) as [H|[(?&?&?)|(?&?&?)]].
    + rewrite main_no_input in Hlost by done. done.
    + rewrite main_invalid, rejection_files in Hlost by done. done.
    + rewrite main_merge in Hlost by done. cbn [files] in Hlost.
      rewrite merge_untouched in Hlost by done. done.
  - destruct (grown_main WORDS POS ISSUE fs path) as [(_ & _ & Hk)|(_ & _ & He)].
    + by apply Hk in Hlost.
    + by apply content_not_encodable.
Qed.

Lemma store_lost_by_failed_save_witness :
  sample_surrogate_files !! "Sources/PhraseKit/Resources/_noun.json" ≠ Some Unparsable ∧
  files (main "emu" "noun" None sample_surrogate_files)
    !! "Sources/PhraseKit/Resources/_noun.json" = Some Unparsable ∧
  outcome (main "emu" "noun" None sample_surrogate_files) = inl UnicodeEncodeError.
Proof.
  assert (sample_surrogate_files !! "Sources/PhraseKit/Resources/_noun.json"
          ≠ Some Unparsable) as H1 by (by vm_compute).
  assert (files (main "emu" "noun" None sample_surrogate_files)
            !! "Sources/PhraseKit/Resources/_noun.json" = Some Unparsable) as H2
    by (by vm_compute).
  split; [exact H1|]. split; [exact H2|].
  exact (proj1 (store_lost_by_failed_save "emu" "noun" None sample_surrogate_files _ H1 H2)).
Defined.

End lost.
